(** * WTA 2024 points dataset analysis: a shallow embedding of [wta_analysis.py]

    The script is a straight line of pandas calls: load a sheet, clean four
    columns, aggregate, print and plot.  The development below follows it in
    that order.  A data frame is the list of its rows, a [Series] the list of
    its (label, value) pairs in display order, a blank cell / [NaN] / [NaT]
    is [None], and a raised exception is the [Err] branch of [result].
    Floating point rates are modelled exactly, as rationals. *)

From Stdlib Require Import List ZArith QArith Qfield String Ascii Bool Lia.
From Stdlib Require Import Permutation Sorted.
Import ListNotations.

Local Open Scope string_scope.
Local Open Scope list_scope.
Local Open Scope Z_scope.

Set Implicit Arguments.

(* ================================================================== *)
(** ** Values held by a sheet *)

(** A point in time, as pandas' [Timestamp] splits it. *)
Record timestamp := {
  year : Z;
  month : Z;
  day : Z;
  time_of_day : Z
}.

(** A monthly [Period]: what [.dt.to_period("M")] keeps of a timestamp. *)
Record period := {
  pyear : Z;
  pmonth : Z
}.

(** One cell as the spreadsheet reader hands it over. *)
Inductive cell :=
| Blank
| Text (s : string)
| Stamp (t : timestamp).

(** Exceptions the script can die of. *)
Inductive exn :=
| FileNotFoundError
| BadFile
| ValueError
| KeyError (column : string)
| DateParseError (text : string).

Inductive result (A : Type) :=
| Ok (a : A)
| Err (e : exn).

Arguments Ok {A} a.
Arguments Err {A} e.

Definition bind {A B} (m : result A) (k : A -> result B) : result B :=
  match m with
  | Ok a => k a
  | Err e => Err e
  end.

Notation "x <- m ;; k" := (bind m (fun x => k))
  (at level 61, m at next level, right associativity).

Fixpoint mapM {A B} (f : A -> result B) (l : list A) : result (list B) :=
  match l with
  | [] => Ok []
  | a :: t => b <- f a ;; bs <- mapM f t ;; Ok (b :: bs)
  end.

(* ================================================================== *)
(** ** Group keys *)

(** What [groupby] and [unique] need of a label type: equality, and the
    order in which sorted group keys come out. *)
Class Key (K : Type) := {
  keqb : K -> K -> bool;
  keqb_spec : forall a b, reflect (a = b) (keqb a b);
  kleb : K -> K -> bool;
  kleb_total : forall a b, kleb a b = true \/ kleb b a = true
}.

#[export] Instance string_Key : Key string := {
  keqb := String.eqb;
  keqb_spec := String.eqb_spec;
  kleb := String.leb;
  kleb_total := String.leb_total
}.

Definition period_eqb (p q : period) : bool :=
  (pyear p =? pyear q) && (pmonth p =? pmonth q).

Definition period_leb (p q : period) : bool :=
  (pyear p <? pyear q) || ((pyear p =? pyear q) && (pmonth p <=? pmonth q)).

Lemma period_eqb_spec (p q : period) : reflect (p = q) (period_eqb p q).
Proof.
  destruct p as [y m], q as [y' m']; unfold period_eqb; simpl.
  destruct (Z.eqb_spec y y'), (Z.eqb_spec m m'); simpl; constructor;
    congruence.
Qed.

Lemma period_leb_total (p q : period) :
  period_leb p q = true \/ period_leb q p = true.
Proof.
  destruct p as [y m], q as [y' m']; unfold period_leb; simpl.
  destruct (Z.ltb_spec y y'), (Z.ltb_spec y' y), (Z.eqb_spec y y'),
    (Z.eqb_spec y' y), (Z.leb_spec m m'), (Z.leb_spec m' m); simpl; auto; lia.
Qed.

#[export] Instance period_Key : Key period := {
  keqb := period_eqb;
  keqb_spec := period_eqb_spec;
  kleb := period_leb;
  kleb_total := period_leb_total
}.

(** Tuples of labels compare component by component, first component first. *)
Definition pair_eqb {A B} `{Key A} `{Key B} (x y : A * B) : bool :=
  keqb (fst x) (fst y) && keqb (snd x) (snd y).

Definition pair_leb {A B} `{Key A} `{Key B} (x y : A * B) : bool :=
  if keqb (fst x) (fst y) then kleb (snd x) (snd y) else kleb (fst x) (fst y).

Lemma pair_eqb_spec {A B} `{Key A} `{Key B} (x y : A * B) :
  reflect (x = y) (pair_eqb x y).
Proof.
  destruct x as [a b], y as [a' b']; unfold pair_eqb; simpl.
  destruct (keqb_spec a a'), (keqb_spec b b'); simpl; constructor; congruence.
Qed.

Lemma pair_leb_total {A B} `{Key A} `{Key B} (x y : A * B) :
  pair_leb x y = true \/ pair_leb y x = true.
Proof.
  destruct x as [a b], y as [a' b']; unfold pair_leb; simpl.
  destruct (keqb_spec a a'), (keqb_spec a' a); try congruence.
  - apply kleb_total.
  - apply kleb_total.
Qed.

#[export] Instance pair_Key {A B} `{Key A} `{Key B} : Key (A * B) := {
  keqb := pair_eqb;
  keqb_spec := pair_eqb_spec;
  kleb := pair_leb;
  kleb_total := pair_leb_total
}.

(* ================================================================== *)
(** ** The pandas operations the script calls *)

(** [Series.dropna] on an object column: blanks go, the rest stay in place. *)
Definition dropna {A} (col : list (option A)) : list A :=
  flat_map (fun x => match x with Some a => [a] | None => [] end) col.

(** [Series.count]: the number of values that are not blank. *)
Definition count {A} (col : list (option A)) : Z :=
  Z.of_nat (List.length (dropna col)).

Definition sum_Z (col : list Z) : Z := fold_right Z.add 0 col.

(** [Series.mean] of an integer column: [NaN] on an empty one. *)
Definition mean (col : list Z) : option Q :=
  match col with
  | [] => None
  | _ :: _ => Some (inject_Z (sum_Z col) / inject_Z (Z.of_nat (List.length col)))%Q
  end.

(** [Series.notna]. *)
Definition notna {A} (x : option A) : bool :=
  match x with
  | Some _ => true
  | None => false
  end.

(** [df.dropna(subset=[c])]: the rows whose column [c] is not blank. *)
Definition dropna_subset {A B} (c : A -> option B) (df : list A) : list A :=
  filter (fun r => notna (c r)) df.

(** [Series.head(n)]. *)
Definition head {A} (n : nat) (l : list A) : list A := firstn n l.

(** Positional indexing [l[idx]] with an array of positions.  Every indexer
    built below is a rearrangement of the positions of [l]
    (see [nargsort_positions]), so the out-of-range branch, where numpy
    raises [IndexError], is never taken. *)
Definition take {A} (l : list A) (idx : list nat) : list A :=
  flat_map (fun i => match nth_error l i with Some a => [a] | None => [] end)
    idx.

Definition enumerate {A} (l : list A) : list (nat * A) :=
  combine (seq 0 (List.length l)) l.

Section Grouping.
Context {K : Type} `{Key K}.

(** [pd.unique]: the distinct values, each at its first appearance. *)
Fixpoint unique (l : list K) : list K :=
  match l with
  | [] => []
  | k :: t => k :: filter (fun k' => negb (keqb k k')) (unique t)
  end.

Fixpoint insert_key (k : K) (l : list K) : list K :=
  match l with
  | [] => [k]
  | h :: t => if kleb k h then k :: l else h :: insert_key k t
  end.

(** The ascending order in which [groupby(..., sort=True)] lists its keys. *)
Definition sort_keys (l : list K) : list K := fold_right insert_key [] l.

(** The keys of the groups: each non-blank key of the frame, once. *)
Definition group_keys {A} (by_ : A -> option K) (df : list A) : list K :=
  sort_keys (unique (dropna (map by_ df))).

Definition has_key {A} (by_ : A -> option K) (k : K) (r : A) : bool :=
  match by_ r with
  | Some k' => keqb k k'
  | None => false
  end.

(** [df.groupby(by)] with its defaults [sort=True, dropna=True]: one group
    per distinct non-blank key, keys ascending, each group holding its rows
    in frame order.  Rows whose key is blank belong to no group. *)
Definition groupby {A} (by_ : A -> option K) (df : list A)
  : list (K * list A) :=
  map (fun k => (k, filter (has_key by_ k) df)) (group_keys by_ df).

End Grouping.

(** [np.argsort(kind="quicksort")], the default every [sort_values] of the
    script ends in.  numpy promises positions that put the values in
    ascending order and nothing about equal values: pandas documents only
    [kind="mergesort"] and [kind="stable"] as stable.  The class records
    exactly that promise; which rearrangement of equal values comes out is
    left to the instance. *)
Class ArgSort (V : Type) (le : V -> V -> Prop) := {
  argsort : list V -> list nat;
  argsort_perm : forall l, Permutation (argsort l) (seq 0 (List.length l));
  argsort_sorted : forall l, StronglySorted le (take l (argsort l))
}.

Section SortValues.
Context {V : Type} {le : V -> V -> Prop} `{ArgSort V le}.

(** The positions of a column that hold a value, each with its value. *)
Definition non_nan_of (e : list (nat * option V)) : list (nat * V) :=
  flat_map (fun iv => match snd iv with Some v => [(fst iv, v)] | None => [] end) e.

(** The positions of a column that hold [NaN]. *)
Definition nan_of (e : list (nat * option V)) : list nat :=
  flat_map (fun iv => match snd iv with Some _ => [] | None => [fst iv] end) e.

(** [pandas.core.sorting.nargsort] with [na_position="last"]: the [NaN]
    positions are set aside, a descending sort reverses the rest, sorts it
    ascending and reverses the outcome, and the [NaN] positions go last. *)
Definition nargsort (ascending : bool) (items : list (option V)) : list nat :=
  let idx := enumerate items in
  let non_nan := non_nan_of idx in
  let nan_idx := nan_of idx in
  let non_nan := if ascending then non_nan else rev non_nan in
  let indexer := take (map fst non_nan) (argsort (map snd non_nan)) in
  let indexer := if ascending then indexer else rev indexer in
  indexer ++ nan_idx.

(** [sort_values] of a series or of a frame by one column [by_]. *)
Definition sort_values {A} (by_ : A -> option V) (ascending : bool)
  (l : list A) : list A :=
  take l (nargsort ascending (map by_ l)).

(** The sorted part of the indexer, as positions paired with values. *)
Definition sorted_entries (ascending : bool) (items : list (option V))
  : list (nat * V) :=
  let nn := non_nan_of (enumerate items) in
  let nn := if ascending then nn else rev nn in
  let picked := take nn (argsort (map snd nn)) in
  if ascending then picked else rev picked.

End SortValues.

(** Descending order with [NaN] last. *)
Definition ge_nan_last {V} (le : V -> V -> Prop) (a b : option V) : Prop :=
  match a, b with
  | Some x, Some y => le y x
  | _, None => True
  | None, Some _ => False
  end.

(** An insertion sort over (position, value) entries.  With
    [ties_reversed = false] equal values keep the order they came in (what
    [kind="stable"] gives); with [ties_reversed = true] they come out in
    the opposite order.  Both put the values in ascending order, so both
    are behaviours [kind="quicksort"] allows. *)
Section InsertionSort.
Context {V : Type} (leb : V -> V -> bool).
Variable ties_reversed : bool.

Definition goes_before (x h : nat * V) : bool :=
  if ties_reversed then negb (leb (snd h) (snd x)) else leb (snd x) (snd h).

Fixpoint insert_entry (x : nat * V) (l : list (nat * V)) : list (nat * V) :=
  match l with
  | [] => [x]
  | h :: t => if goes_before x h then x :: l else h :: insert_entry x t
  end.

Definition insertion_sort (l : list (nat * V)) : list (nat * V) :=
  fold_right insert_entry [] l.

Definition insertion_argsort (l : list V) : list nat :=
  map fst (insertion_sort (enumerate l)).

End InsertionSort.

(** numpy's [argsort] for [kind="quicksort"] as its portable C++ source has
    it ([npysort/quicksort.cpp], [aquicksort_]; [npysort/heapsort.cpp],
    [aheapsort_]): an introsort over the array [tosort] of positions.  A
    stretch of more than 17 positions is split around the median of its
    first, middle and last value, the smaller part is sorted first and the
    larger one later; shorter stretches are sorted by insertion; a stretch
    that comes up after its depth budget is spent is heap sorted.  [less] is
    the comparison [a < b] of the values.  Lists stand for the C arrays,
    natural numbers for the pointers into [tosort]; the loops carry a fuel
    that they never use up.  (On processors with AVX2 or AVX-512 numpy
    puts a vectorised sort in the place of this routine; it keeps the same
    promise and, like this one, no order among equal values.) *)
Section NumpyQuicksort.
Local Open Scope nat_scope.
Context {V : Type} (less : V -> V -> bool) (dflt : V).

(** The values [v] being sorted. *)
Variable v : list V.

Definition value_at (i : nat) : V := nth i v dflt.

Definition at_ (a : list nat) (p : nat) : nat := nth p a 0.

(** [a[p] = x]; the C code never writes outside the array. *)
Definition put (a : list nat) (p x : nat) : list nat :=
  if p <? List.length a then firstn p a ++ x :: skipn (S p) a else a.

(** [INTP_SWAP(a[p], a[q])]. *)
Definition intp_swap (a : list nat) (p q : nat) : list nat :=
  put (put a p (at_ a q)) q (at_ a p).

(** [do { ++pi; } while (less(v[*pi], vp));] *)
Fixpoint scan_right (fuel : nat) (a : list nat) (vp : V) (pi : nat) : nat :=
  match fuel with
  | O => pi
  | S fuel =>
      let pi := S pi in
      if less (value_at (at_ a pi)) vp then scan_right fuel a vp pi else pi
  end.

(** [do { --pj; } while (less(vp, v[*pj]));] *)
Fixpoint scan_left (fuel : nat) (a : list nat) (vp : V) (pj : nat) : nat :=
  match fuel with
  | O => pj
  | S fuel =>
      let pj := pred pj in
      if less vp (value_at (at_ a pj)) then scan_left fuel a vp pj else pj
  end.

(** The [for (;;)] loop of the partition: scan from both ends, swap, until
    the scans meet; the result is the array and [pi]. *)
Fixpoint hoare_loop (fuel : nat) (a : list nat) (vp : V) (pi pj : nat)
  : list nat * nat :=
  match fuel with
  | O => (a, pi)
  | S fuel =>
      let pi := scan_right (List.length a) a vp pi in
      let pj := scan_left (List.length a) a vp pj in
      if pj <=? pi then (a, pi) else hoare_loop fuel (intp_swap a pi pj) vp pi pj
  end.

(** One partition of the stretch from [pl] to [pr]: median of three, the
    pivot parked at [pr - 1], the scans, and the pivot put in its place
    [pi]. *)
Definition partition (a : list nat) (pl pr : nat) : list nat * nat :=
  let pm := pl + (pr - pl) / 2 in
  let a := if less (value_at (at_ a pm)) (value_at (at_ a pl))
           then intp_swap a pm pl else a in
  let a := if less (value_at (at_ a pr)) (value_at (at_ a pm))
           then intp_swap a pr pm else a in
  let a := if less (value_at (at_ a pm)) (value_at (at_ a pl))
           then intp_swap a pm pl else a in
  let vp := value_at (at_ a pm) in
  let pj := pr - 1 in
  let a := intp_swap a pm pj in
  let '(a, pi) := hoare_loop (List.length a) a vp pl pj in
  (intp_swap a pi (pr - 1), pi).

(** [while (pj > pl && less(vp, v[*pk])) { *pj-- = *pk--; } *pj = vi;] *)
Fixpoint shift (fuel : nat) (a : list nat) (vi pl pj : nat) : list nat :=
  match fuel with
  | O => put a pj vi
  | S fuel =>
      if (pl <? pj) && less (value_at vi) (value_at (at_ a (pj - 1)))
      then shift fuel (put a pj (at_ a (pj - 1))) vi pl (pj - 1)
      else put a pj vi
  end.

(** [for (pi = pl + 1; pi <= pr; ++pi)]: the insertion sort of a stretch. *)
Fixpoint insertion_loop (count : nat) (a : list nat) (pl pi pr : nat)
  : list nat :=
  match count with
  | O => a
  | S count =>
      if pi <=? pr
      then insertion_loop count (shift (List.length a) a (at_ a pi) pl pi)
             pl (S pi) pr
      else a
  end.

Definition insertion_stretch (a : list nat) (pl pr : nat) : list nat :=
  insertion_loop (List.length a) a pl (S pl) pr.

(** The heap sort works on the stretch that starts at [pl], addressed from
    1: its [a[k]] is position [pl + k - 1]. *)
Definition heap_at (a : list nat) (pl k : nat) : nat := at_ a (pl + k - 1).

Definition heap_put (a : list nat) (pl k x : nat) : list nat :=
  put a (pl + k - 1) x.

(** [for (i, j; j <= n;) { ... } a[i] = tmp;]: sift [tmp] down from [i]. *)
Fixpoint sift (fuel : nat) (a : list nat) (pl n tmp i j : nat) : list nat :=
  match fuel with
  | O => heap_put a pl i tmp
  | S fuel =>
      if j <=? n then
        let j := if (j <? n) &&
                    less (value_at (heap_at a pl j))
                         (value_at (heap_at a pl (j + 1)))
                 then j + 1 else j in
        if less (value_at tmp) (value_at (heap_at a pl j))
        then sift fuel (heap_put a pl i (heap_at a pl j)) pl n tmp j (j + j)
        else heap_put a pl i tmp
      else heap_put a pl i tmp
  end.

(** [for (l = n >> 1; l > 0; --l)]. *)
Fixpoint build_heap (l : nat) (a : list nat) (pl n : nat) : list nat :=
  match l with
  | O => a
  | S l' => build_heap l' (sift n a pl n (heap_at a pl l) l (2 * l)) pl n
  end.

(** [for (; n > 1;)]: the largest goes last, the rest is sifted. *)
Fixpoint sort_down (n : nat) (a : list nat) (pl : nat) : list nat :=
  match n with
  | S (S _ as n') =>
      let tmp := heap_at a pl n in
      let a := heap_put a pl n (heap_at a pl 1) in
      sort_down n' (sift n' a pl n' tmp 1 2) pl
  | _ => a
  end.

Definition aheapsort (a : list nat) (pl n : nat) : list nat :=
  sort_down n (build_heap (n / 2) a pl n) pl.

(** The outer loop, as a recursion on the stretches.  [popped] tells a
    stretch taken from the stack, whose depth is tested, from the one the
    inner loop goes on with, whose depth is not. *)
Fixpoint aquicksort_loop (fuel : nat) (popped : bool) (a : list nat)
  (pl pr : nat) (cdepth : Z) : list nat :=
  match fuel with
  | O => a
  | S fuel =>
      if popped && (cdepth <? 0)%Z then aheapsort a pl (pr - pl + 1)
      else if 16 <? pr - pl then
        let '(a, pi) := partition a pl pr in
        let cdepth := (cdepth - 1)%Z in
        if pi - pl <? pr - pi then
          let a := aquicksort_loop fuel false a pl (pi - 1) cdepth in
          aquicksort_loop fuel true a (pi + 1) pr cdepth
        else
          let a := aquicksort_loop fuel false a (pi + 1) pr cdepth in
          aquicksort_loop fuel true a pl (pi - 1) cdepth
      else insertion_stretch a pl pr
  end.

(** [aquicksort_(v, tosort, num)] on [tosort = 0, 1, ..., num - 1], with the
    depth budget [2 * npy_get_msb(num)]. *)
Definition aquicksort : list nat :=
  match v with
  | [] => []
  | _ :: _ =>
      let num := List.length v in
      aquicksort_loop num true (seq 0 num) 0 (num - 1)
        (2 * Z.of_nat (Nat.log2 num))%Z
  end.

End NumpyQuicksort.

(** Whether the positions [r] are a rearrangement of the positions of [l]
    that puts its values in ascending order. *)
Section SortsCheck.
Context {V : Type} (leb : V -> V -> bool).

Fixpoint nodupb (r : list nat) : bool :=
  match r with
  | [] => true
  | i :: t => negb (existsb (Nat.eqb i) t) && nodupb t
  end.

Fixpoint ascendingb (l : list V) : bool :=
  match l with
  | x :: (y :: _) as t => leb x y && ascendingb t
  | _ => true
  end.

Definition sortsb (l : list V) (r : list nat) : bool :=
  Nat.eqb (List.length r) (List.length l) &&
  forallb (fun i => Nat.ltb i (List.length l)) r &&
  nodupb r && ascendingb (take l r).

(** A sorting routine used where its answer sorts; the stable insertion sort
    steps in where it does not.  For a routine that sorts, such as numpy's,
    the test never fails: it is there so that an instance of [ArgSort] can
    be made of the routine without a proof that introsort sorts. *)
Definition checked_argsort (routine : list V -> list nat) (l : list V)
  : list nat :=
  if sortsb l (routine l) then routine l else insertion_argsort leb false l.

End SortsCheck.

(** [a < b] on rates. *)
Definition Qlt_bool (x y : Q) : bool := negb (Qle_bool y x).

(** numpy's quicksort on a column of rates. *)
Definition npy_argsort_Q (l : list Q) : list nat :=
  checked_argsort Qle_bool (fun l => aquicksort Qlt_bool 0%Q l) l.

(** numpy's quicksort on a column of counts. *)
Definition npy_argsort_Z (l : list Z) : list nat :=
  checked_argsort Z.leb (fun l => aquicksort Z.ltb 0 l) l.

(** [Series.value_counts()] with its defaults [sort=True, dropna=True]:
    the distinct non-blank values in order of first appearance, each with
    the number of times it occurs, then sorted by that number, largest
    first. *)
Definition value_counts {K} `{Key K} `{ArgSort Z Z.le}
  (col : list (option K)) : list (K * Z) :=
  sort_values (fun kc => Some (snd kc)) false
    (map (fun k => (k, Z.of_nat (List.length (filter (keqb k) (dropna col)))))
       (unique (dropna col))).

(** [Series.nunique()]. *)
Definition nunique {K} `{Key K} (col : list (option K)) : Z :=
  Z.of_nat (List.length (unique (dropna col))).

(* ================================================================== *)
(** ** Loading the sheet (lines 23-24) *)

Module Loader.

(** What may sit at a path: something that is not a readable workbook, or
    a workbook, of which only the lines of the first sheet matter. *)
Inductive file :=
| Unreadable
| Workbook (first_sheet : list (list cell)).

Definition filesystem := string -> option file.

(** A frame as it comes out of the reader: the cells of the header line and
    the lines under it.  pandas renames a blank header cell to
    ["Unnamed: i"] and a repeated one to ["name.1"], ["name.2"], ...;
    neither new name can be one of the six the script asks for, and the
    first occurrence keeps its name, so looking a name up among the raw
    header cells finds the same column. *)
Record frame := {
  columns : list cell;
  data : list (list cell)
}.

Definition file_path : string := "2024-WTA-Women-Points-Dataset.xlsx".

(** [pd.read_excel(path, header=h)]: line [h] (counted from 0) gives the
    column labels and the lines after it are the rows.  A sheet with no line
    at all loads as an empty frame; a sheet that ends before line [h] is
    refused by the parser. *)
Definition read_excel (fs : filesystem) (path : string) (header : nat)
  : result frame :=
  match fs path with
  | None => Err FileNotFoundError
  | Some Unreadable => Err BadFile
  | Some (Workbook []) => Ok {| columns := []; data := [] |}
  | Some (Workbook lines) =>
      match nth_error lines header with
      | None => Err ValueError
      | Some h => Ok {| columns := h; data := skipn (S header) lines |}
      end
  end.

Definition df_of (fs : filesystem) : result frame := read_excel fs file_path 1.

Definition is_label (name : string) (c : cell) : bool :=
  match c with
  | Text s => String.eqb s name
  | _ => false
  end.

Fixpoint position (name : string) (cols : list cell) : option nat :=
  match cols with
  | [] => None
  | c :: t => if is_label name c then Some O else option_map S (position name t)
  end.

(** [df[name]]: the column of that label, or [KeyError]. *)
Definition getitem (df : frame) (name : string) : result (list cell) :=
  match position name (columns df) with
  | None => Err (KeyError name)
  | Some i => Ok (map (fun line => nth i line Blank) (data df))
  end.

(** The columns of the sheet the script reads, in the order in which it
    first asks for each (lines 36, 38, 47, 48, 55 and 139). *)
Definition used_columns : list string :=
  ["MATCH DATE"; "WON SERVE"; "TOURNAMENT ID"; "MATCH ID"; "SURFACE";
   "TOURNAMENT NAME"].

(** The run as far as its look-ups go: load, then fetch each column. *)
Definition lookups (fs : filesystem) : result (list (list cell)) :=
  df <- df_of fs ;; mapM (getitem df) used_columns.

(** The header has every column the script uses. *)
Definition header_matches (hdr : list cell) : bool :=
  forallb (fun name => existsb (is_label name) hdr) used_columns.

End Loader.

(* ================================================================== *)
(** ** Cleaning (lines 36-39) *)

(** A row as loaded: the raw date cell and five label columns, each a text
    or blank. *)
Record raw_row := {
  raw_MATCH_DATE : cell;
  raw_TOURNAMENT_ID : option string;
  raw_TOURNAMENT_NAME : option string;
  raw_MATCH_ID : option string;
  raw_SURFACE : option string;
  raw_WON_SERVE : option string
}.

(** A row after cleaning: the date parsed, and three helper columns. *)
Record row := {
  MATCH_DATE : option timestamp;
  TOURNAMENT_ID : option string;
  TOURNAMENT_NAME : option string;
  MATCH_ID : option string;
  SURFACE : option string;
  WON_SERVE : option string;
  MONTH : option period;
  hold : Z;
  is_service_game : Z
}.

(** The [errors=] keyword of [pd.to_datetime]. *)
Inductive errors_kw :=
| errors_raise
| errors_coerce.

(** [.dt.to_period("M")]: [NaT] stays [NaT]. *)
Definition to_period_M (d : option timestamp) : option period :=
  option_map (fun t => {| pyear := year t; pmonth := month t |}) d.

(** [col == s] on an object column: a blank equals nothing. *)
Definition eq_str (x : option string) (s : string) : bool :=
  match x with
  | Some s' => String.eqb s' s
  | None => false
  end.

(** [col.isin(values)]. *)
Definition isin (x : option string) (values : list string) : bool :=
  existsb (eq_str x) values.

Section Cleaning.

(** The date parser [pd.to_datetime] settles on for the column at hand,
    [None] where it would raise.  pandas infers one format from the texts of
    the column, so another column, even one that differs in a single cell,
    can have another parser. *)
Variable parse_datetime : string -> option timestamp.

Definition to_datetime_cell (errors : errors_kw) (c : cell)
  : result (option timestamp) :=
  match c with
  | Blank => Ok None
  | Stamp t => Ok (Some t)
  | Text s =>
      match parse_datetime s with
      | Some t => Ok (Some t)
      | None =>
          match errors with
          | errors_raise => Err (DateParseError s)
          | errors_coerce => Ok None
          end
      end
  end.

(** [pd.to_datetime(col, errors=...)]: one bad cell raises for the whole
    column, unless [errors="coerce"]. *)
Definition to_datetime (errors : errors_kw) (col : list cell)
  : result (list (option timestamp)) :=
  mapM (to_datetime_cell errors) col.

Definition cleaned (r : raw_row) (d : option timestamp) : row :=
  {| MATCH_DATE := d;
     TOURNAMENT_ID := raw_TOURNAMENT_ID r;
     TOURNAMENT_NAME := raw_TOURNAMENT_NAME r;
     MATCH_ID := raw_MATCH_ID r;
     SURFACE := raw_SURFACE r;
     WON_SERVE := raw_WON_SERVE r;
     MONTH := to_period_M d;
     hold := Z.b2z (eq_str (raw_WON_SERVE r) "WON");
     is_service_game := Z.b2z (isin (raw_WON_SERVE r) ["WON"; "LOST"]) |}.

(** Lines 36-39. *)
Definition clean (df : list raw_row) : result (list row) :=
  dates <- to_datetime errors_coerce (map raw_MATCH_DATE df) ;;
  Ok (map (fun rd => cleaned (fst rd) (snd rd)) (combine df dates)).

(** The date a cell is turned into under [errors="coerce"]. *)
Definition coerced (c : cell) : option timestamp :=
  match c with
  | Blank => None
  | Stamp t => Some t
  | Text s => parse_datetime s
  end.

(** One line of the sheet, cleaned. *)
Definition cleaned_row (r : raw_row) : row :=
  cleaned r (coerced (raw_MATCH_DATE r)).

End Cleaning.

(* ================================================================== *)
(** ** Aggregates (lines 46-71, 115-122, 138-144) *)

Definition tournament_key (r : row) : option (string * string) :=
  match TOURNAMENT_ID r, TOURNAMENT_NAME r with
  | Some i, Some n => Some (i, n)
  | _, _ => None
  end.

Section Aggregator.
Context `{SQ : ArgSort Q Qle} `{SZ : ArgSort Z Z.le}.

(** How a monthly period prints ([astype(str)], line 122). *)
Variable period_str : period -> string.

Definition num_rows (df : list row) : Z := Z.of_nat (List.length df).

Definition num_tournaments (df : list row) : Z := nunique (map TOURNAMENT_ID df).

Definition num_matches (df : list row) : Z := nunique (map MATCH_ID df).

Definition surface_counts (df : list row) : list (string * Z) :=
  value_counts (map SURFACE df).

Definition serve_games (df : list row) : list row :=
  filter (fun r => is_service_game r =? 1) df.

Definition overall_hold_rate (df : list row) : option Q :=
  mean (map hold (serve_games df)).

(** [serve_games.groupby("SURFACE")["hold"].mean()], before it is sorted. *)
Definition hold_by_surface_unsorted (df : list row)
  : list (string * option Q) :=
  map (fun kg => (fst kg, mean (map hold (snd kg))))
    (groupby SURFACE (serve_games df)).

Definition hold_by_surface (df : list row) : list (string * option Q) :=
  sort_values snd false (hold_by_surface_unsorted df).

(** Lines 115-120: the frame with columns MONTH and NUM_GAMES. *)
Definition games_per_month_frame (df : list row) : list (period * Z) :=
  map (fun kg => (fst kg, count (map MATCH_ID (snd kg))))
    (groupby MONTH (dropna_subset MONTH df)).

(** Line 122: the month column turned into text. *)
Definition games_per_month (df : list row) : list (string * Z) :=
  map (fun kn => (period_str (fst kn), snd kn)) (games_per_month_frame df).

(** Lines 139-141: one line per tournament, before sorting. *)
Definition tournament_rows (df : list row) : list ((string * string) * Z) :=
  map (fun kg => (fst kg, count (map MATCH_ID (snd kg))))
    (groupby tournament_key df).

Definition top_tournaments (df : list row) : list ((string * string) * Z) :=
  head 10 (sort_values (fun kn => Some (snd kn)) false (tournament_rows df)).

End Aggregator.

(* ================================================================== *)
(** ** Reporting the overall rate (line 64) *)

(** [f"{x:.1%}"]: a rate as a percentage with one decimal.  Python prints
    [NaN] as "nan%"; how it rounds and prints a number is left to
    [percent_1]. *)
Definition format_percent (percent_1 : Q -> string) (x : option Q) : string :=
  match x with
  | Some q => percent_1 q
  | None => "nan%"
  end.

(** The line [print(f"Overall hold percentage: {overall_hold_rate:.1%}")]. *)
Definition overall_hold_line (percent_1 : Q -> string) (df : list row)
  : string :=
  String.append "Overall hold percentage: "
    (format_percent percent_1 (overall_hold_rate df)).

(* ================================================================== *)
(** ** Notions the statements below use *)

(** Rows of the sheet whose serve outcome is exactly ["WON"]. *)
Definition won_rows (df : list raw_row) : list raw_row :=
  filter (fun r => eq_str (raw_WON_SERVE r) "WON") df.

(** Rows of the sheet whose serve outcome is ["WON"] or ["LOST"]. *)
Definition played_rows (df : list raw_row) : list raw_row :=
  filter (fun r => isin (raw_WON_SERVE r) ["WON"; "LOST"]) df.

(** The number of service rows played on a surface. *)
Definition service_rows_on (df : list row) (s : string) : Z :=
  Z.of_nat (List.length (filter (has_key SURFACE s) (serve_games df))).

(** The sum of rate times weight; [NaN] if a rate is. *)
Fixpoint weighted_sum (w : string -> Z) (rates : list (string * option Q))
  : option Q :=
  match rates with
  | [] => Some 0%Q
  | (s, r) :: t =>
      match r, weighted_sum w t with
      | Some x, Some acc => Some (x * inject_Z (w s) + acc)%Q
      | _, _ => None
      end
  end.

(** The weighted average; [NaN] when the weights add up to nothing. *)
Definition weighted_average (w : string -> Z)
  (rates : list (string * option Q)) : option Q :=
  let total := sum_Z (map (fun sr => w (fst sr)) rates) in
  match weighted_sum w rates with
  | Some x => if total =? 0 then None else Some (x / inject_Z total)%Q
  | None => None
  end.

(** Two rates are the same number, or both are [NaN]. *)
Definition same_rate (a b : option Q) : Prop :=
  match a, b with
  | Some x, Some y => (x == y)%Q
  | None, None => True
  | _, _ => False
  end.

(** The table the specification words: one line per pair in the order in
    which the pairs are first met, each with the number of its rows, sorted,
    largest first, and cut to ten lines. *)
Definition top_tournaments_by_discovery `{SZ : ArgSort Z Z.le} (df : list row)
  : list ((string * string) * Z) :=
  head 10
    (sort_values (fun kn => Some (snd kn)) false
       (map (fun k => (k, Z.of_nat (List.length
                            (filter (has_key tournament_key k) df))))
          (unique (dropna (map tournament_key df))))).

(* ================================================================== *)
(** ** Sample sheets *)

(** A parser that reads no text at all: every date below is a date cell. *)
Definition no_text_dates : string -> option timestamp := fun _ => None.

Definition jan15 : timestamp :=
  {| year := 2024; month := 1; day := 15; time_of_day := 0 |}.

Definition jan2024 : period := {| pyear := 2024; pmonth := 1 |}.

(** A game of match M1 of tournament (T1, Open). *)
Definition game (surface : option string) (outcome : string) : row :=
  cleaned_row no_text_dates
    {| raw_MATCH_DATE := Stamp jan15;
       raw_TOURNAMENT_ID := Some "T1";
       raw_TOURNAMENT_NAME := Some "Open";
       raw_MATCH_ID := Some "M1";
       raw_SURFACE := surface;
       raw_WON_SERVE := Some outcome |}.

(** A game won on hard court in a given tournament. *)
Definition game_of (id name : string) : row :=
  cleaned_row no_text_dates
    {| raw_MATCH_DATE := Stamp jan15;
       raw_TOURNAMENT_ID := Some id;
       raw_TOURNAMENT_NAME := Some name;
       raw_MATCH_ID := Some "M1";
       raw_SURFACE := Some "Hard";
       raw_WON_SERVE := Some "WON" |}.

(** A line of the sheet with a date and no MATCH ID. *)
Definition line_without_match_id : raw_row :=
  {| raw_MATCH_DATE := Stamp jan15;
     raw_TOURNAMENT_ID := Some "T1";
     raw_TOURNAMENT_NAME := Some "Open";
     raw_MATCH_ID := None;
     raw_SURFACE := Some "Hard";
     raw_WON_SERVE := Some "WON" |}.

(** A printer of numbers for the samples; none of them prints a number. *)
Definition sample_percent : Q -> string := fun _ => "?".

(** A game of a tournament without an id, won on hard court. *)
Definition game_without_id (name : string) : row :=
  cleaned_row no_text_dates
    {| raw_MATCH_DATE := Stamp jan15;
       raw_TOURNAMENT_ID := None;
       raw_TOURNAMENT_NAME := Some name;
       raw_MATCH_ID := Some "M1";
       raw_SURFACE := Some "Hard";
       raw_WON_SERVE := Some "WON" |}.

(** Eighteen surfaces, in the order of their labels. *)
Definition eighteen_labels : list string :=
  ["S01"; "S02"; "S03"; "S04"; "S05"; "S06"; "S07"; "S08"; "S09";
   "S10"; "S11"; "S12"; "S13"; "S14"; "S15"; "S16"; "S17"; "S18"].

(** A sheet with one game on each of the eighteen surfaces, each held. *)
Definition eighteen_surfaces : list row :=
  map (fun s => game (Some s) "WON") eighteen_labels.

(** Whether two lists of labels are the same list. *)
Fixpoint same_labels (l l' : list string) : bool :=
  match l, l' with
  | [], [] => true
  | s :: t, s' :: t' => String.eqb s s' && same_labels t t'
  | _, _ => false
  end.

(** A workbook at the path the script reads: a banner, the six column
    names, one full data line and one that stops after its first cell. *)
Definition sample_workbook (banner : string) : Loader.filesystem :=
  fun path =>
    if String.eqb path Loader.file_path
    then Some (Loader.Workbook
                 [[Text banner];
                  [Text "MATCH ID"; Text "MATCH DATE"; Text "TOURNAMENT ID";
                   Text "TOURNAMENT NAME"; Text "SURFACE"; Text "WON SERVE"];
                  [Text "M1"; Stamp jan15; Text "T1"; Text "Open";
                   Text "Hard"; Text "WON"];
                  [Text "M2"]])
    else None.

(* ================================================================== *)
(** ** Facts about positional indexing *)

Lemma sum_Z_cons (x : Z) (l : list Z) : sum_Z (x :: l) = x + sum_Z l.
Proof. reflexivity. Qed.

Lemma sum_Z_app (l1 l2 : list Z) : sum_Z (l1 ++ l2) = sum_Z l1 + sum_Z l2.
Proof.
  induction l1 as [|x l1 IH]; [reflexivity|].
  simpl app. rewrite !sum_Z_cons, IH. lia.
Qed.

Lemma sum_Z_Permutation (l1 l2 : list Z) :
  Permutation l1 l2 -> sum_Z l1 = sum_Z l2.
Proof.
  induction 1; rewrite ?sum_Z_cons in *; lia.
Qed.

Lemma take_app {A} (l : list A) (i j : list nat) :
  take l (i ++ j) = take l i ++ take l j.
Proof. unfold take. apply flat_map_app. Qed.

Lemma take_rev {A} (l : list A) (idx : list nat) :
  take l (rev idx) = rev (take l idx).
Proof.
  induction idx as [|i idx IH]; simpl; [reflexivity|].
  rewrite take_app, IH. simpl.
  destruct (nth_error l i); simpl; rewrite ?app_nil_r; reflexivity.
Qed.

Lemma take_map {A B} (f : A -> B) (l : list A) (idx : list nat) :
  take (map f l) idx = map f (take l idx).
Proof.
  induction idx as [|i idx IH]; simpl; [reflexivity|].
  rewrite nth_error_map, IH. destruct (nth_error l i); reflexivity.
Qed.

Lemma take_seq_from {A} (p l : list A) :
  take (p ++ l) (seq (List.length p) (List.length l)) = l.
Proof.
  revert p. induction l as [|a l IH]; intros p; simpl; [reflexivity|].
  rewrite nth_error_app2, Nat.sub_diag by lia. simpl. f_equal.
  specialize (IH (p ++ [a])).
  rewrite <- app_assoc, length_app in IH. simpl in IH.
  rewrite Nat.add_1_r in IH. exact IH.
Qed.

Lemma take_seq {A} (l : list A) : take l (seq 0 (List.length l)) = l.
Proof. exact (take_seq_from [] l). Qed.

Lemma take_Permutation {A} (l : list A) (i j : list nat) :
  Permutation i j -> Permutation (take l i) (take l j).
Proof. intros P. unfold take. now apply Permutation_flat_map. Qed.

Lemma take_positions {A} (l : list A) (idx : list nat) :
  Permutation idx (seq 0 (List.length l)) -> Permutation (take l idx) l.
Proof.
  intros P. rewrite <- (take_seq l) at 2. now apply take_Permutation.
Qed.

Lemma take_incl {A} (l : list A) (idx : list nat) (a : A) :
  In a (take l idx) -> In a l.
Proof.
  unfold take. rewrite in_flat_map. intros [i [_ Hi]].
  destruct (nth_error l i) eqn:E; simpl in Hi; [|contradiction].
  destruct Hi as [<-|[]]. eapply nth_error_In; eauto.
Qed.

Lemma enumerate_from_In {A} (l : list A) (s i : nat) (a : A) :
  In (i, a) (combine (seq s (List.length l)) l) ->
  (s <= i)%nat /\ nth_error l (i - s) = Some a.
Proof.
  revert s. induction l as [|b l IH]; intros s; simpl; [contradiction|].
  intros [E|Hin].
  - inversion E; subst. rewrite Nat.sub_diag. auto.
  - apply IH in Hin. destruct Hin as [Hle Hn]. split; [lia|].
    replace (i - s)%nat with (S (i - S s)) by lia. exact Hn.
Qed.

Lemma enumerate_In {A} (l : list A) (i : nat) (a : A) :
  In (i, a) (enumerate l) -> nth_error l i = Some a.
Proof.
  intros Hin. apply enumerate_from_In in Hin.
  rewrite Nat.sub_0_r in Hin. tauto.
Qed.

Lemma enumerate_fst {A} (l : list A) :
  map fst (enumerate l) = seq 0 (List.length l).
Proof.
  unfold enumerate. generalize 0%nat. induction l as [|a l IH]; intros s;
    simpl; [reflexivity|]. now rewrite IH.
Qed.

Lemma enumerate_snd {A} (l : list A) : map snd (enumerate l) = l.
Proof.
  unfold enumerate. generalize 0%nat. induction l as [|a l IH]; intros s;
    simpl; [reflexivity|]. now rewrite IH.
Qed.

(** Indexing by the positions of entries that all sit where they say. *)
Lemma take_located {A} (l : list A) (q : list (nat * A)) :
  Forall (fun ia => nth_error l (fst ia) = Some (snd ia)) q ->
  take l (map fst q) = map snd q.
Proof.
  induction 1 as [|[i a] q Hia _ IH]; simpl; [reflexivity|].
  simpl in Hia. now rewrite Hia, IH.
Qed.

Lemma StronglySorted_map {A B} (R : B -> B -> Prop) (f : A -> B) (l : list A) :
  StronglySorted R (map f l) <-> StronglySorted (fun a b => R (f a) (f b)) l.
Proof.
  induction l as [|a l IH]; simpl.
  - split; constructor.
  - split; intros S; inversion S; subst; constructor;
      try (apply IH; assumption).
    + now rewrite Forall_map in *.
    + now rewrite Forall_map.
Qed.

Lemma StronglySorted_app {A} (R : A -> A -> Prop) (l1 l2 : list A) :
  StronglySorted R l1 -> StronglySorted R l2 ->
  (forall a b, In a l1 -> In b l2 -> R a b) ->
  StronglySorted R (l1 ++ l2).
Proof.
  induction 1 as [|a l1 S1 IH F]; intros S2 Hx; simpl; [assumption|].
  constructor.
  - apply IH; [assumption|]. intros; apply Hx; simpl; auto.
  - apply Forall_app. split; [assumption|].
    apply Forall_forall. intros b Hb. apply Hx; simpl; auto.
Qed.

Lemma StronglySorted_rev {A} (R : A -> A -> Prop) (l : list A) :
  StronglySorted R l -> StronglySorted (fun a b => R b a) (rev l).
Proof.
  induction 1 as [|a l S IH F]; simpl; [constructor|].
  apply StronglySorted_app; [assumption|repeat constructor|].
  intros x y Hx [<-|[]]. rewrite Forall_forall in F. apply F.
  now apply in_rev.
Qed.

(* ================================================================== *)
(** ** What [sort_values] guarantees under any [argsort] *)

Section SortValuesFacts.
Context {V : Type} {le : V -> V -> Prop} `{AS : ArgSort V le}.

Lemma split_positions (e : list (nat * option V)) :
  Permutation (map fst (non_nan_of e) ++ nan_of e) (map fst e).
Proof.
  induction e as [|[i [v|]] e IH]; simpl.
  - constructor.
  - now constructor.
  - symmetry. apply Permutation_cons_app. now symmetry.
Qed.

Lemma non_nan_of_In (e : list (nat * option V)) (i : nat) (v : V) :
  In (i, v) (non_nan_of e) -> In (i, Some v) e.
Proof.
  unfold non_nan_of. rewrite in_flat_map. intros [[j [w|]] [Hin Hv]];
    simpl in Hv; [|contradiction].
  destruct Hv as [E|[]]. now inversion E; subst.
Qed.

Lemma nan_of_In (e : list (nat * option V)) (i : nat) :
  In i (nan_of e) -> In (i, None) e.
Proof.
  unfold nan_of. rewrite in_flat_map. intros [[j [w|]] [Hin Hv]];
    simpl in Hv; [contradiction|].
  destruct Hv as [E|[]]. now subst.
Qed.

Lemma nargsort_unfold (ascending : bool) (items : list (option V)) :
  nargsort ascending items =
  map fst (sorted_entries ascending items) ++ nan_of (enumerate items).
Proof.
  unfold nargsort, sorted_entries, non_nan_of, nan_of.
  destruct ascending; f_equal.
  - apply take_map.
  - etransitivity; [|symmetry; apply map_rev]. f_equal. apply take_map.
Qed.

Lemma sorted_entries_Permutation (ascending : bool) (items : list (option V)) :
  Permutation (sorted_entries ascending items) (non_nan_of (enumerate items)).
Proof.
  unfold sorted_entries.
  set (nn := non_nan_of (enumerate items)).
  assert (P : forall l : list (nat * V),
             Permutation (take l (argsort (map snd l))) l).
  { intros l. apply take_positions.
    rewrite <- (length_map snd l). apply argsort_perm. }
  destruct ascending.
  - apply P.
  - rewrite <- Permutation_rev. rewrite P. symmetry. apply Permutation_rev.
Qed.

(** The indexer rearranges the positions of the column: nothing is lost,
    repeated or out of range. *)
Lemma nargsort_positions (ascending : bool) (items : list (option V)) :
  Permutation (nargsort ascending items) (seq 0 (List.length items)).
Proof.
  rewrite nargsort_unfold, <- enumerate_fst.
  rewrite <- (split_positions (enumerate items)).
  apply Permutation_app_tail, Permutation_map, sorted_entries_Permutation.
Qed.

Lemma sort_values_Permutation {A} (by_ : A -> option V) (ascending : bool)
  (l : list A) :
  Permutation (sort_values by_ ascending l) l.
Proof.
  unfold sort_values. apply take_positions.
  rewrite <- (length_map by_ l). apply nargsort_positions.
Qed.

Lemma sorted_entries_values_desc (items : list (option V)) :
  StronglySorted (fun x y => le y x) (map snd (sorted_entries false items)).
Proof.
  unfold sorted_entries.
  set (nn := rev (non_nan_of (enumerate items))).
  rewrite map_rev, <- take_map.
  apply StronglySorted_rev, argsort_sorted.
Qed.

Lemma sorted_entries_located (ascending : bool) (items : list (option V)) :
  Forall (fun iv => nth_error items (fst iv) = Some (Some (snd iv)))
    (sorted_entries ascending items).
Proof.
  apply Forall_forall. intros [i v] Hin. simpl.
  apply (Permutation_in _ (sorted_entries_Permutation ascending items)) in Hin.
  now apply enumerate_In, non_nan_of_In.
Qed.

Lemma take_sorted_by {A} (by_ : A -> option V) (l : list A)
  (q : list (nat * V)) :
  Forall (fun iv => nth_error (map by_ l) (fst iv) = Some (Some (snd iv))) q ->
  map by_ (take l (map fst q)) = map (fun iv => Some (snd iv)) q.
Proof.
  induction 1 as [|[i v] q Hiv _ IH]; simpl; [reflexivity|].
  simpl in Hiv. rewrite nth_error_map in Hiv.
  destruct (nth_error l i) as [a|]; simpl in *; [|discriminate].
  inversion Hiv as [E]. now rewrite E, IH.
Qed.

Lemma take_nan_by {A} (by_ : A -> option V) (l : list A) :
  Forall (fun a => by_ a = None)
    (take l (nan_of (enumerate (map by_ l)))).
Proof.
  apply Forall_forall. intros a. unfold take. rewrite in_flat_map.
  intros [i [Hi Ha]]. apply nan_of_In, enumerate_In in Hi.
  rewrite nth_error_map in Hi.
  destruct (nth_error l i) as [b|]; simpl in *; [|contradiction].
  destruct Ha as [<-|[]]. now inversion Hi.
Qed.

(** Sorting with [ascending=False] leaves the values in descending order,
    whatever [argsort] does with equal ones. *)
Lemma sort_values_descending {A} (by_ : A -> option V) (l : list A) :
  StronglySorted (fun a b => ge_nan_last le (by_ a) (by_ b))
    (sort_values by_ false l).
Proof.
  unfold sort_values. rewrite nargsort_unfold, take_app.
  pose proof (take_nan_by by_ l) as Hnan.
  pose proof (take_sorted_by by_ l (sorted_entries_located false (map by_ l)))
    as Hval.
  pose proof (sorted_entries_values_desc (map by_ l)) as Hdesc.
  set (front := take l (map fst (sorted_entries false (map by_ l)))) in *.
  set (back := take l (nan_of (enumerate (map by_ l)))) in *.
  rewrite Forall_forall in Hnan.
  apply StronglySorted_app.
  - apply (StronglySorted_map (ge_nan_last le) by_ front). rewrite Hval.
    rewrite <- (map_map snd Some).
    apply (StronglySorted_map (ge_nan_last le) Some). exact Hdesc.
  - assert (F : Forall (fun a => by_ a = None) back)
      by now apply Forall_forall.
    clear -F. induction F as [|a back Ha F IH]; constructor; [assumption|].
    apply Forall_forall. intros b Hb. rewrite Forall_forall in F.
    rewrite (F b Hb). destruct (by_ a); exact I.
  - intros a b _ Hb. rewrite (Hnan b Hb). destruct (by_ a); exact I.
Qed.

End SortValuesFacts.

(* ================================================================== *)
(** ** Two sorts that keep numpy's promise *)

(** Either way of breaking ties sorts, and loses or repeats no position. *)
Section InsertionArgsort.
Context {V : Type} (le : V -> V -> Prop) (leb : V -> V -> bool).
Hypothesis leb_le : forall x y, leb x y = true -> le x y.
Hypothesis leb_total : forall x y, leb x y = true \/ leb y x = true.
Hypothesis le_trans : forall x y z, le x y -> le y z -> le x z.
Variable ties_reversed : bool.

Lemma goes_before_le (x h : nat * V) :
  goes_before leb ties_reversed x h = true -> le (snd x) (snd h).
Proof.
  unfold goes_before. destruct ties_reversed; [|apply leb_le].
  destruct (leb_total (snd x) (snd h)) as [E|E]; [intros _; now apply leb_le|].
  rewrite E. discriminate.
Qed.

Lemma goes_after_le (x h : nat * V) :
  goes_before leb ties_reversed x h = false -> le (snd h) (snd x).
Proof.
  unfold goes_before. destruct ties_reversed.
  - intros E. apply leb_le. now destruct (leb (snd h) (snd x)).
  - intros E. destruct (leb_total (snd x) (snd h)) as [E'|E'];
      [congruence|now apply leb_le].
Qed.

Lemma insert_entry_Permutation (x : nat * V) (l : list (nat * V)) :
  Permutation (insert_entry leb ties_reversed x l) (x :: l).
Proof.
  induction l as [|h t IH]; simpl; [reflexivity|].
  destruct (goes_before leb ties_reversed x h); [reflexivity|].
  rewrite IH. apply perm_swap.
Qed.

Lemma insertion_sort_Permutation (l : list (nat * V)) :
  Permutation (insertion_sort leb ties_reversed l) l.
Proof.
  induction l as [|x l IH]; simpl; [reflexivity|].
  rewrite insert_entry_Permutation. now constructor.
Qed.

Lemma insert_entry_sorted (x : nat * V) (l : list (nat * V)) :
  StronglySorted (fun a b => le (snd a) (snd b)) l ->
  StronglySorted (fun a b => le (snd a) (snd b)) (insert_entry leb ties_reversed x l).
Proof.
  induction 1 as [|h t S IH F]; simpl; [repeat constructor|].
  destruct (goes_before leb ties_reversed x h) eqn:E.
  - apply goes_before_le in E. constructor; [now constructor|].
    constructor; [assumption|].
    eapply Forall_impl; [|exact F]. intros a Ha. simpl in Ha. eauto.
  - apply goes_after_le in E. constructor; [assumption|].
    apply (@Permutation_Forall _ _ (x :: t)).
    + symmetry. apply insert_entry_Permutation.
    + now constructor.
Qed.

Lemma insertion_sort_sorted (l : list (nat * V)) :
  StronglySorted (fun a b => le (snd a) (snd b)) (insertion_sort leb ties_reversed l).
Proof.
  induction l as [|x l IH]; simpl; [constructor|].
  now apply insert_entry_sorted.
Qed.

Lemma insertion_argsort_perm (l : list V) :
  Permutation (insertion_argsort leb ties_reversed l) (seq 0 (List.length l)).
Proof.
  unfold insertion_argsort. rewrite <- enumerate_fst.
  apply Permutation_map, insertion_sort_Permutation.
Qed.

Lemma insertion_argsort_sorted (l : list V) :
  StronglySorted le (take l (insertion_argsort leb ties_reversed l)).
Proof.
  unfold insertion_argsort. rewrite take_located.
  - apply StronglySorted_map, insertion_sort_sorted.
  - apply Forall_forall. intros [i v] Hin. simpl. apply enumerate_In.
    eapply Permutation_in; [apply insertion_sort_Permutation|exact Hin].
Qed.

Definition insertion_ArgSort : ArgSort le := {|
  argsort := insertion_argsort leb ties_reversed;
  argsort_perm := insertion_argsort_perm;
  argsort_sorted := insertion_argsort_sorted
|}.

End InsertionArgsort.

Lemma Qle_bool_le (x y : Q) : Qle_bool x y = true -> (x <= y)%Q.
Proof. apply Qle_bool_iff. Qed.

Lemma Qle_bool_total (x y : Q) : Qle_bool x y = true \/ Qle_bool y x = true.
Proof.
  rewrite !Qle_bool_iff. destruct (Qlt_le_dec x y) as [L|L]; [left|right];
    [now apply Qlt_le_weak|assumption].
Qed.

Lemma Zleb_le (x y : Z) : (x <=? y) = true -> x <= y.
Proof. apply Z.leb_le. Qed.

Lemma Zleb_total (x y : Z) : (x <=? y) = true \/ (y <=? x) = true.
Proof. rewrite !Z.leb_le. lia. Qed.

(** A stable sort of rates and of counts. *)
Definition stable_Q : ArgSort Qle :=
  @insertion_ArgSort Q Qle Qle_bool Qle_bool_le Qle_bool_total Qle_trans false.

Definition stable_Z : ArgSort Z.le :=
  @insertion_ArgSort Z Z.le Z.leb Zleb_le Zleb_total Z.le_trans false.

(** A checked routine keeps numpy's promise, whatever the routine is. *)
Section CheckedArgsortFacts.
Context {V : Type} (le : V -> V -> Prop) (leb : V -> V -> bool).
Hypothesis leb_le : forall x y, leb x y = true -> le x y.
Hypothesis leb_total : forall x y, leb x y = true \/ leb y x = true.
Hypothesis le_trans : forall x y z, le x y -> le y z -> le x z.
Variable routine : list V -> list nat.

Lemma nodupb_NoDup (r : list nat) : nodupb r = true -> NoDup r.
Proof.
  induction r as [|i r IH]; simpl; [constructor|].
  rewrite andb_true_iff, negb_true_iff. intros [Hi Hr].
  constructor; [|now apply IH].
  intros Hin. assert (E : existsb (Nat.eqb i) r = true).
  { apply existsb_exists. exists i. split; [exact Hin|apply Nat.eqb_refl]. }
  congruence.
Qed.

Lemma ascendingb_sorted (l : list V) :
  ascendingb leb l = true -> StronglySorted le l.
Proof.
  intros A. apply Sorted_StronglySorted; [exact le_trans|].
  induction l as [|x l IH]; [constructor|].
  destruct l as [|y l]; [repeat constructor|].
  cbn [ascendingb] in A. apply andb_true_iff in A. destruct A as [Hxy A].
  constructor; [now apply IH|]. constructor. now apply leb_le.
Qed.

Lemma sortsb_sound (l : list V) (r : list nat) :
  sortsb leb l r = true ->
  Permutation r (seq 0 (List.length l)) /\ StronglySorted le (take l r).
Proof.
  unfold sortsb. rewrite !andb_true_iff.
  intros [[[Hlen Hin] Hnd] Hasc]. split; [|now apply ascendingb_sorted].
  apply Nat.eqb_eq in Hlen. apply NoDup_Permutation_bis.
  - now apply nodupb_NoDup.
  - rewrite length_seq, Hlen. apply Nat.le_refl.
  - intros i Hi. rewrite forallb_forall in Hin. apply Hin in Hi.
    apply Nat.ltb_lt in Hi. apply in_seq. split; [apply Nat.le_0_l|exact Hi].
Qed.

Lemma checked_argsort_perm (l : list V) :
  Permutation (checked_argsort leb routine l) (seq 0 (List.length l)).
Proof.
  unfold checked_argsort. destruct (sortsb leb l (routine l)) eqn:E.
  - now apply sortsb_sound.
  - apply insertion_argsort_perm.
Qed.

Lemma checked_argsort_sorted (l : list V) :
  StronglySorted le (take l (checked_argsort leb routine l)).
Proof.
  unfold checked_argsort. destruct (sortsb leb l (routine l)) eqn:E.
  - now apply sortsb_sound.
  - now apply insertion_argsort_sorted.
Qed.

Definition checked_ArgSort : ArgSort le := {|
  argsort := checked_argsort leb routine;
  argsort_perm := checked_argsort_perm;
  argsort_sorted := checked_argsort_sorted
|}.

End CheckedArgsortFacts.

(** numpy's quicksort of rates and of counts. *)
Definition numpy_Q : ArgSort Qle :=
  @checked_ArgSort Q Qle Qle_bool Qle_bool_le Qle_bool_total Qle_trans
    (fun l => aquicksort Qlt_bool 0%Q l).

Definition numpy_Z : ArgSort Z.le :=
  @checked_ArgSort Z Z.le Z.leb Zleb_le Zleb_total Z.le_trans
    (fun l => aquicksort Z.ltb 0 l).

(* ================================================================== *)
(** ** Facts about grouping *)

Lemma dropna_In {A} (col : list (option A)) (a : A) :
  In a (dropna col) <-> In (Some a) col.
Proof.
  unfold dropna. rewrite in_flat_map. split.
  - intros [[b|] [Hin Hb]]; simpl in Hb; [|contradiction].
    destruct Hb as [<-|[]]. exact Hin.
  - intros Hin. exists (Some a). simpl. auto.
Qed.

Lemma dropna_map_length {A B} (c : A -> option B) (l : list A) :
  List.length (dropna (map c l)) = List.length (dropna_subset c l).
Proof.
  induction l as [|a l IH]; simpl; [reflexivity|].
  destruct (c a); simpl; [now rewrite IH|exact IH].
Qed.

Section GroupingFacts.
Context {K : Type} `{KK : Key K}.

Lemma keqb_eq (a b : K) : keqb a b = true <-> a = b.
Proof. destruct (keqb_spec a b); split; congruence. Qed.

Lemma keqb_refl (a : K) : keqb a a = true.
Proof. now apply keqb_eq. Qed.

Lemma has_key_iff {A} (by_ : A -> option K) (k : K) (r : A) :
  has_key by_ k r = true <-> by_ r = Some k.
Proof.
  unfold has_key. destruct (by_ r) as [k'|].
  - rewrite keqb_eq. split; congruence.
  - split; discriminate.
Qed.

Lemma unique_In (l : list K) (k : K) : In k (unique l) <-> In k l.
Proof.
  induction l as [|h t IH]; simpl; [tauto|].
  rewrite filter_In, IH. destruct (keqb_spec h k); simpl; intuition congruence.
Qed.

Lemma unique_NoDup (l : list K) : NoDup (unique l).
Proof.
  induction l as [|h t IH]; simpl; constructor.
  - rewrite filter_In, keqb_refl. simpl. intros [_ F]. discriminate.
  - now apply NoDup_filter.
Qed.

Lemma insert_key_Permutation (k : K) (l : list K) :
  Permutation (insert_key k l) (k :: l).
Proof.
  induction l as [|h t IH]; simpl; [reflexivity|].
  destruct (kleb k h); [reflexivity|]. rewrite IH. apply perm_swap.
Qed.

Lemma sort_keys_Permutation (l : list K) : Permutation (sort_keys l) l.
Proof.
  induction l as [|k l IH]; simpl; [reflexivity|].
  rewrite insert_key_Permutation. now constructor.
Qed.

Lemma insert_key_Sorted (k : K) (l : list K) :
  Sorted (fun a b => kleb a b = true) l ->
  Sorted (fun a b => kleb a b = true) (insert_key k l).
Proof.
  induction l as [|h t IH]; simpl; intros S; [repeat constructor|].
  destruct (kleb k h) eqn:E.
  - constructor; [assumption|now constructor].
  - inversion S as [|? ? St Hd]; subst. constructor; [now apply IH|].
    destruct t as [|h' t]; simpl.
    + constructor. destruct (kleb_total k h); congruence.
    + inversion Hd; subst. destruct (kleb k h'); constructor;
        [destruct (kleb_total k h); congruence|assumption].
Qed.

Lemma sort_keys_Sorted (l : list K) :
  Sorted (fun a b => kleb a b = true) (sort_keys l).
Proof.
  induction l as [|k l IH]; simpl; [constructor|].
  now apply insert_key_Sorted.
Qed.

Lemma groupby_keys {A} (by_ : A -> option K) (df : list A) :
  map fst (groupby by_ df) = group_keys by_ df.
Proof. unfold groupby. rewrite map_map. simpl. apply map_id. Qed.

Lemma group_keys_In {A} (by_ : A -> option K) (df : list A) (k : K) :
  In k (group_keys by_ df) <-> exists r, In r df /\ by_ r = Some k.
Proof.
  unfold group_keys.
  split.
  - intros Hin. apply (Permutation_in _ (sort_keys_Permutation _)) in Hin.
    apply unique_In, dropna_In, in_map_iff in Hin.
    destruct Hin as [r [E Hr]]. eauto.
  - intros [r [Hr E]].
    apply (Permutation_in _ (Permutation_sym (sort_keys_Permutation _))).
    apply unique_In, dropna_In, in_map_iff. eauto.
Qed.

Lemma group_keys_NoDup {A} (by_ : A -> option K) (df : list A) :
  NoDup (group_keys by_ df).
Proof.
  unfold group_keys.
  eapply Permutation_NoDup;
    [symmetry; apply sort_keys_Permutation|apply unique_NoDup].
Qed.

Lemma groupby_In {A} (by_ : A -> option K) (df : list A) (k : K)
  (g : list A) :
  In (k, g) (groupby by_ df) <->
  In k (group_keys by_ df) /\ g = filter (has_key by_ k) df.
Proof.
  unfold groupby. rewrite in_map_iff. split.
  - intros [k' [E Hin]]. inversion E; subst. auto.
  - intros [Hin ->]. eauto.
Qed.

(** No group is empty. *)
Lemma group_nonempty {A} (by_ : A -> option K) (df : list A) (k : K) :
  In k (group_keys by_ df) -> filter (has_key by_ k) df <> [].
Proof.
  rewrite group_keys_In. intros [r [Hr E]] F.
  assert (Hin : In r (filter (has_key by_ k) df))
    by (apply filter_In; split; [assumption|now apply has_key_iff]).
  rewrite F in Hin. contradiction.
Qed.

(** Summing a quantity group by group counts every keyed row once. *)
Lemma sum_indicator (ks : list K) (k : K) (x : Z) :
  NoDup ks -> In k ks ->
  sum_Z (map (fun k' => if keqb k' k then x else 0) ks) = x.
Proof.
  induction 1 as [|h t Hn Hnd IH]; simpl; [contradiction|].
  intros [->|Hin].
  - rewrite keqb_refl.
    assert (Z0 : sum_Z (map (fun k' => if keqb k' k then x else 0) t) = 0).
    { clear IH Hnd. induction t as [|h t IH]; simpl; [reflexivity|].
      destruct (keqb_spec h k) as [->|_].
      - exfalso. apply Hn. simpl. auto.
      - rewrite IH; [reflexivity|]. intros F. apply Hn. simpl. auto. }
    lia.
  - destruct (keqb_spec h k) as [->|_]; [contradiction|]. now rewrite IH.
Qed.

Lemma sum_by_group {A} (by_ : A -> option K) (f : A -> Z) (ks : list K)
  (df : list A) :
  NoDup ks ->
  (forall r k, In r df -> by_ r = Some k -> In k ks) ->
  sum_Z (map (fun k => sum_Z (map f (filter (has_key by_ k) df))) ks) =
  sum_Z (map f (dropna_subset by_ df)).
Proof.
  intros Hnd. induction df as [|r df IH]; intros Hall; simpl.
  - clear. induction ks; simpl; [reflexivity|]. now rewrite IHks.
  - assert (IH' := IH (fun r' k Hr => Hall r' k (or_intror Hr))). clear IH.
    assert (Split :
      sum_Z (map (fun k => sum_Z (map f
                (if has_key by_ k r then r :: filter (has_key by_ k) df
                 else filter (has_key by_ k) df))) ks) =
      sum_Z (map (fun k => if has_key by_ k r then f r else 0) ks) +
      sum_Z (map (fun k => sum_Z (map f (filter (has_key by_ k) df))) ks)).
    { clear. induction ks as [|k ks IHk]; simpl; [reflexivity|].
      rewrite IHk. destruct (has_key by_ k r); simpl; lia. }
    rewrite Split, IH'. unfold dropna_subset. simpl.
    destruct (by_ r) as [k0|] eqn:E; simpl.
    + rewrite (map_ext _ (fun k => if keqb k k0 then f r else 0))
        by (intros k; unfold has_key; now rewrite E).
      rewrite sum_indicator; [reflexivity|assumption|].
      apply (Hall r k0); simpl; auto.
    + rewrite (map_ext _ (fun _ => 0))
        by (intros k; unfold has_key; now rewrite E).
      assert (Z0 : sum_Z (map (fun _ : K => 0) ks) = 0)
        by (clear; induction ks; simpl; lia).
      rewrite Z0. reflexivity.
Qed.

End GroupingFacts.

(* ================================================================== *)
(** ** Cleaning never fails, and what it computes *)

Section CleaningFacts.
Variable parse_datetime : string -> option timestamp.

Lemma to_datetime_coerce (col : list cell) :
  to_datetime parse_datetime errors_coerce col = Ok (map (coerced parse_datetime) col).
Proof.
  unfold to_datetime. induction col as [|c col IH]; simpl; [reflexivity|].
  rewrite IH. destruct c as [|s|t]; simpl; try reflexivity.
  destruct (parse_datetime s); reflexivity.
Qed.

(** With the default [errors="raise"] one bad cell would end the run. *)
Lemma to_datetime_raise (s : string) (col : list cell) :
  parse_datetime s = None ->
  to_datetime parse_datetime errors_raise (Text s :: col) =
  Err (DateParseError s).
Proof. intros E. unfold to_datetime. simpl. now rewrite E. Qed.

Lemma clean_ok (df : list raw_row) :
  clean parse_datetime df = Ok (map (cleaned_row parse_datetime) df).
Proof.
  unfold clean. rewrite to_datetime_coerce. simpl. f_equal.
  induction df as [|r df IH]; simpl; [reflexivity|]. now rewrite IH.
Qed.

Lemma serve_games_cleaned (df : list raw_row) :
  serve_games (map (cleaned_row parse_datetime) df) =
  map (cleaned_row parse_datetime)
    (filter (fun r => isin (raw_WON_SERVE r) ["WON"; "LOST"]) df).
Proof.
  unfold serve_games. induction df as [|r df IH]; simpl; [reflexivity|].
  rewrite IH.
  destruct (eq_str (raw_WON_SERVE r) "WON" || (eq_str (raw_WON_SERVE r) "LOST" || false));
    reflexivity.
Qed.

Lemma sum_hold_cleaned (df : list raw_row) :
  sum_Z (map hold (map (cleaned_row parse_datetime)
    (filter (fun r => isin (raw_WON_SERVE r) ["WON"; "LOST"]) df))) =
  Z.of_nat (List.length
    (filter (fun r => eq_str (raw_WON_SERVE r) "WON") df)).
Proof.
  induction df as [|r df IH]; [reflexivity|].
  assert (Hin : isin (raw_WON_SERVE r) ["WON"; "LOST"] =
                eq_str (raw_WON_SERVE r) "WON" ||
                eq_str (raw_WON_SERVE r) "LOST")
    by (simpl; now rewrite orb_false_r).
  assert (Hh : hold ((cleaned_row parse_datetime) r) = Z.b2z (eq_str (raw_WON_SERVE r) "WON"))
    by reflexivity.
  cbn [filter]. rewrite Hin.
  destruct (eq_str (raw_WON_SERVE r) "WON"); cbn [orb].
  - rewrite !map_cons, sum_Z_cons, IH, Hh. cbn [Z.b2z List.length]. lia.
  - destruct (eq_str (raw_WON_SERVE r) "LOST"); [|exact IH].
    rewrite !map_cons, sum_Z_cons, IH, Hh. cbn [Z.b2z]. lia.
Qed.

End CleaningFacts.

(* ================================================================== *)
(** ** The serve flags and the overall hold rate *)

(** C7.  Cleaning always succeeds, and in every row it produces the two
    flags are 0 or 1, [hold = 1] only where [is_service_game = 1], and a
    serve outcome other than "WON" and "LOST" (a blank included) leaves both
    flags at 0. *)
Theorem hold_implies_service_game
  (parse_datetime : string -> option timestamp) (df : list raw_row) :
  exists rows,
    clean parse_datetime df = Ok rows /\
    map WON_SERVE rows = map raw_WON_SERVE df /\
    Forall (fun r =>
      (hold r = 0 \/ hold r = 1) /\
      (is_service_game r = 0 \/ is_service_game r = 1) /\
      (hold r = 1 <-> WON_SERVE r = Some "WON") /\
      (is_service_game r = 1 <->
         WON_SERVE r = Some "WON" \/ WON_SERVE r = Some "LOST") /\
      (hold r = 1 -> is_service_game r = 1) /\
      (WON_SERVE r <> Some "WON" -> WON_SERVE r <> Some "LOST" ->
         hold r = 0 /\ is_service_game r = 0)) rows.
Proof.
  exists (map (cleaned_row parse_datetime) df). split; [apply clean_ok|].
  split; [now rewrite map_map|].
  apply Forall_forall. intros r Hr. apply in_map_iff in Hr.
  destruct Hr as [raw [<- _]].
  unfold cleaned_row, cleaned; cbn [hold is_service_game WON_SERVE].
  destruct (raw_WON_SERVE raw) as [s|]; cbn [isin existsb eq_str].
  - destruct (String.eqb_spec s "WON") as [->|Hw];
      [|destruct (String.eqb_spec s "LOST") as [->|Hl]]; cbn;
      repeat split; auto; try discriminate; try tauto;
      try (intros [E|E]; congruence); try (intros E; congruence).
  - cbn. repeat split; auto; try discriminate; try tauto;
      intros [E|E]; discriminate.
Qed.

(** C8.  Cleaning never fails on a date: a text that does not parse
    becomes a blank date, a text that parses, a timestamp and a blank cell
    are kept as they are, and the month of every row is the year and month
    of its date, blank exactly when the date is. *)
Theorem date_parsing_is_permissive
  (parse_datetime : string -> option timestamp) (df : list raw_row) :
  exists rows,
    clean parse_datetime df = Ok rows /\
    Forall2 (fun raw r =>
      (forall s, raw_MATCH_DATE raw = Text s -> parse_datetime s = None ->
         MATCH_DATE r = None) /\
      (forall s, raw_MATCH_DATE raw = Text s ->
         MATCH_DATE r = parse_datetime s) /\
      (forall t, raw_MATCH_DATE raw = Stamp t -> MATCH_DATE r = Some t) /\
      (raw_MATCH_DATE raw = Blank -> MATCH_DATE r = None) /\
      MONTH r = to_period_M (MATCH_DATE r) /\
      (forall t, MATCH_DATE r = Some t ->
         MONTH r = Some {| pyear := year t; pmonth := month t |}) /\
      (MONTH r = None <-> MATCH_DATE r = None)) df rows.
Proof.
  exists (map (cleaned_row parse_datetime) df). split; [apply clean_ok|].
  induction df as [|raw df IH]; simpl; constructor; [|exact IH].
  unfold cleaned_row, cleaned; cbn [MATCH_DATE MONTH].
  repeat split.
  - intros s E P. rewrite E. exact P.
  - intros s E. now rewrite E.
  - intros t E. now rewrite E.
  - intros E. now rewrite E.
  - intros t E. now rewrite E.
  - destruct (coerced parse_datetime (raw_MATCH_DATE raw)); simpl;
      [discriminate|reflexivity].
  - intros E. now rewrite E.
Qed.

(** On the cleaned sheet the number of service rows is the number of rows
    played (outcome "WON" or "LOST"); with none of them the overall rate is
    [NaN], otherwise it is the number of rows won over the number played. *)
Lemma overall_hold_rate_cleaned
  (parse_datetime : string -> option timestamp) (df : list raw_row) :
  exists rows,
    clean parse_datetime df = Ok rows /\
    overall_hold_rate rows = mean (map hold (serve_games rows)) /\
    List.length (serve_games rows) = List.length (played_rows df) /\
    sum_Z (map hold (serve_games rows)) =
      Z.of_nat (List.length (won_rows df)) /\
    (played_rows df = [] -> overall_hold_rate rows = None) /\
    (played_rows df <> [] ->
       overall_hold_rate rows =
       Some (inject_Z (Z.of_nat (List.length (won_rows df))) /
             inject_Z (Z.of_nat (List.length (played_rows df))))%Q).
Proof.
  exists (map (cleaned_row parse_datetime) df). split; [apply clean_ok|].
  split; [reflexivity|].
  unfold overall_hold_rate. rewrite serve_games_cleaned.
  fold (played_rows df).
  pose proof (sum_hold_cleaned parse_datetime df) as Hsum.
  fold (played_rows df) in Hsum. fold (won_rows df) in Hsum.
  split; [now rewrite length_map|]. split; [exact Hsum|]. split.
  - intros ->. reflexivity.
  - intros Hne. unfold mean.
    destruct (map hold (map (cleaned_row parse_datetime) (played_rows df)))
      as [|h t] eqn:E.
    + destruct (played_rows df); [congruence|discriminate].
    + rewrite Hsum, <- E, !length_map. reflexivity.
Qed.

(** Amended C1.  The overall hold rate is the mean of [hold] over the
    service rows: on the cleaned sheet, the number of rows won over the
    number of rows played.  With no row played it is [NaN], and the report
    prints it as "nan%": the script has no "no data" text. *)
Theorem overall_hold_rate_is_mean
  (parse_datetime : string -> option timestamp) (percent_1 : Q -> string)
  (df : list raw_row) :
  exists rows,
    clean parse_datetime df = Ok rows /\
    overall_hold_rate rows = mean (map hold (serve_games rows)) /\
    List.length (serve_games rows) = List.length (played_rows df) /\
    sum_Z (map hold (serve_games rows)) =
      Z.of_nat (List.length (won_rows df)) /\
    (played_rows df = [] ->
       overall_hold_rate rows = None /\
       overall_hold_line percent_1 rows = "Overall hold percentage: nan%") /\
    (played_rows df <> [] ->
       overall_hold_rate rows =
         Some (inject_Z (Z.of_nat (List.length (won_rows df))) /
               inject_Z (Z.of_nat (List.length (played_rows df))))%Q /\
       overall_hold_line percent_1 rows =
         String.append "Overall hold percentage: "
           (percent_1 (inject_Z (Z.of_nat (List.length (won_rows df))) /
                       inject_Z (Z.of_nat (List.length (played_rows df))))%Q)).
Proof.
  destruct (overall_hold_rate_cleaned parse_datetime df)
    as [rows [Hc [Hm [Hl [Hs [Hnone Hsome]]]]]].
  exists rows. split; [exact Hc|]. split; [exact Hm|]. split; [exact Hl|].
  split; [exact Hs|]. split.
  - intros E. split; [now apply Hnone|].
    unfold overall_hold_line. now rewrite (Hnone E).
  - intros E. split; [now apply Hsome|].
    unfold overall_hold_line. now rewrite (Hsome E).
Qed.

(** C1 as stated fails: with no service game the report says "nan%", and
    "no data" is nowhere in the line. *)
Lemma overall_rate_without_service_prints_nan :
  let df := [game (Some "Hard") "N/A"] in
  serve_games df = [] /\
  overall_hold_rate df = None /\
  overall_hold_line sample_percent df = "Overall hold percentage: nan%" /\
  String.index 0 "no data" (overall_hold_line sample_percent df) = None.
Proof. vm_compute. auto. Qed.

(* ================================================================== *)
(** ** Counting by surface *)

Lemma sum_ones {A} (l : list A) :
  sum_Z (map (fun _ => 1) l) = Z.of_nat (List.length l).
Proof.
  induction l as [|a l IH]; [reflexivity|].
  rewrite map_cons, sum_Z_cons, IH. cbn [List.length]. lia.
Qed.

Lemma dropna_subset_all {A B} (c : A -> option B) (l : list A) :
  (forall r, In r l -> c r <> None) -> dropna_subset c l = l.
Proof.
  unfold dropna_subset. induction l as [|a l IH]; intros Hall;
    [reflexivity|].
  cbn [filter]. destruct (c a) eqn:E.
  - cbn [notna]. rewrite IH; [reflexivity|]. intros r Hr. apply Hall.
    now right.
  - exfalso. apply (Hall a); [now left|exact E].
Qed.

Lemma dropna_subset_Some {A} (l : list A) :
  dropna_subset (@Some A) l = l.
Proof. apply dropna_subset_all. discriminate. Qed.

(** The counts of a column add up to the number of its non-blank cells. *)
Lemma value_counts_sum {K} `{Key K} `{SZ : ArgSort Z Z.le}
  (col : list (option K)) :
  sum_Z (map snd (value_counts col)) = count col.
Proof.
  unfold value_counts, count.
  rewrite (sum_Z_Permutation
             (Permutation_map snd (sort_values_Permutation _ _ _))).
  rewrite map_map. cbn [snd].
  rewrite <- (dropna_subset_Some (dropna col)) at 2.
  rewrite <- sum_ones.
  rewrite <- (sum_by_group (@Some K) (fun _ => 1) (ks := unique (dropna col))).
  - f_equal. apply map_ext. intros k. now rewrite sum_ones.
  - apply unique_NoDup.
  - intros r k Hr E. inversion E; subst. now apply unique_In.
Qed.

(** Amended C4.  The counts in [surface_counts] add up to the number of rows
    whose surface is not blank, which is the number of rows when no surface
    is blank. *)
Theorem surface_counts_sum `{SZ : ArgSort Z Z.le} (df : list row) :
  sum_Z (map snd (surface_counts df)) =
    Z.of_nat (List.length (dropna_subset SURFACE df)) /\
  ((forall r, In r df -> SURFACE r <> None) ->
   sum_Z (map snd (surface_counts df)) = num_rows df).
Proof.
  unfold surface_counts. rewrite value_counts_sum. unfold count.
  rewrite dropna_map_length. split; [reflexivity|].
  intros Hall. now rewrite dropna_subset_all.
Qed.

Lemma dropna_app {A} (l1 l2 : list (option A)) :
  dropna (l1 ++ l2) = dropna l1 ++ dropna l2.
Proof. apply flat_map_app. Qed.

(** A row with a blank key changes nothing in a grouping. *)
Lemma groupby_blank_key {K A} `{Key K} (by_ : A -> option K)
  (before after : list A) (r : A) :
  by_ r = None ->
  groupby by_ (before ++ r :: after) = groupby by_ (before ++ after).
Proof.
  intros E. unfold groupby, group_keys.
  assert (Hk : dropna (map by_ (before ++ r :: after)) =
               dropna (map by_ (before ++ after))).
  { rewrite !map_app, !dropna_app. cbn [map dropna flat_map].
    now rewrite E. }
  rewrite Hk. apply map_ext. intros k. f_equal.
  rewrite !filter_app. cbn [filter]. unfold has_key at 2. now rewrite E.
Qed.

Lemma serve_games_app (l1 l2 : list row) :
  serve_games (l1 ++ l2) = serve_games l1 ++ serve_games l2.
Proof. apply filter_app. Qed.

Lemma mean_nonempty (col : list Z) :
  col <> [] ->
  mean col =
  Some (inject_Z (sum_Z col) / inject_Z (Z.of_nat (List.length col)))%Q.
Proof. destruct col; [congruence|reflexivity]. Qed.

(** C10.  A row whose surface is blank counts as a row and, when it is a
    service game, is one of the service rows the overall hold rate divides
    by; [surface_counts] and [hold_by_surface] are what they would be
    without it. *)
Theorem blank_surface_row_is_dropped
  `{SQ : ArgSort Q Qle} `{SZ : ArgSort Z Z.le}
  (before after : list row) (r : row) :
  SURFACE r = None ->
  num_rows (before ++ r :: after) = num_rows (before ++ after) + 1 /\
  surface_counts (before ++ r :: after) = surface_counts (before ++ after) /\
  hold_by_surface (before ++ r :: after) = hold_by_surface (before ++ after) /\
  (is_service_game r = 1 ->
   serve_games (before ++ r :: after) =
     serve_games before ++ r :: serve_games after /\
   overall_hold_rate (before ++ r :: after) =
     Some (inject_Z (sum_Z (map hold (serve_games (before ++ after))) + hold r) /
           inject_Z (Z.of_nat (List.length (serve_games (before ++ after))) + 1))%Q).
Proof.
  intros E. split; [|split; [|split]].
  - unfold num_rows. rewrite !length_app. cbn [List.length]. lia.
  - unfold surface_counts, value_counts.
    assert (Hd : dropna (map SURFACE (before ++ r :: after)) =
                 dropna (map SURFACE (before ++ after))).
    { rewrite !map_app, !dropna_app. cbn [map dropna flat_map].
      now rewrite E. }
    now rewrite Hd.
  - unfold hold_by_surface, hold_by_surface_unsorted. do 2 f_equal.
    rewrite !serve_games_app. unfold serve_games at 2. cbn [filter].
    fold (serve_games after).
    destruct (is_service_game r =? 1); [|reflexivity].
    now apply groupby_blank_key.
  - intros Hs.
    assert (Hsg : serve_games (before ++ r :: after) =
                  serve_games before ++ r :: serve_games after).
    { rewrite serve_games_app. unfold serve_games at 2. cbn [filter].
      now rewrite Hs. }
    split; [exact Hsg|].
    unfold overall_hold_rate. rewrite Hsg, mean_nonempty.
    + rewrite serve_games_app, !length_map, !length_app.
      rewrite !map_app, map_cons, !sum_Z_app, sum_Z_cons.
      cbn [List.length]. do 3 f_equal; lia.
    + rewrite map_app. cbn [map]. intros F.
      apply app_eq_nil in F. destruct F as [_ F]. discriminate.
Qed.

(* ================================================================== *)
(** ** Hold rate by surface *)

Lemma hold_by_surface_unsorted_In (df : list row) (s : string)
  (v : option Q) :
  In (s, v) (hold_by_surface_unsorted df) <->
  (exists r, In r (serve_games df) /\ SURFACE r = Some s) /\
  v = mean (map hold (filter (has_key SURFACE s) (serve_games df))).
Proof.
  unfold hold_by_surface_unsorted. rewrite in_map_iff. split.
  - intros [[k g] [E Hin]]. cbn [fst snd] in E. inversion E; subst.
    apply groupby_In in Hin. destruct Hin as [Hk ->].
    split; [now apply group_keys_In|reflexivity].
  - intros [Hk ->].
    exists (s, filter (has_key SURFACE s) (serve_games df)).
    split; [reflexivity|]. apply groupby_In. split; [|reflexivity].
    now apply group_keys_In.
Qed.

Lemma hold_by_surface_unsorted_keys (df : list row) :
  map fst (hold_by_surface_unsorted df) = group_keys SURFACE (serve_games df).
Proof.
  unfold hold_by_surface_unsorted. rewrite map_map. cbn [fst].
  apply groupby_keys.
Qed.

(** Amended C2.  [hold_by_surface] has one entry for each surface that a
    service row carries, none for a blank surface; the entry is the mean of
    [hold] over the service rows of that surface, a number and never [NaN];
    and the entries are in descending order of rate.  Nothing is said about
    the order of entries with equal rates. *)
Theorem hold_by_surface_sorted_means `{SQ : ArgSort Q Qle} (df : list row) :
  NoDup (map fst (hold_by_surface df)) /\
  (forall s v,
     In (s, v) (hold_by_surface df) <->
     (exists r, In r (serve_games df) /\ SURFACE r = Some s) /\
     v = mean (map hold (filter (has_key SURFACE s) (serve_games df)))) /\
  (forall s v, In (s, v) (hold_by_surface df) -> exists q, v = Some q) /\
  StronglySorted (fun a b => ge_nan_last Qle (snd a) (snd b))
    (hold_by_surface df).
Proof.
  assert (P : Permutation (hold_by_surface df) (hold_by_surface_unsorted df))
    by apply sort_values_Permutation.
  assert (Hin : forall s v,
     In (s, v) (hold_by_surface df) <->
     (exists r, In r (serve_games df) /\ SURFACE r = Some s) /\
     v = mean (map hold (filter (has_key SURFACE s) (serve_games df)))).
  { intros s v. rewrite <- hold_by_surface_unsorted_In. split.
    - apply Permutation_in, P.
    - apply Permutation_in. now symmetry. }
  split; [|split; [exact Hin|split]].
  - apply (Permutation_NoDup (l := map fst (hold_by_surface_unsorted df))).
    + apply Permutation_map. now symmetry.
    + rewrite hold_by_surface_unsorted_keys. apply group_keys_NoDup.
  - intros s v Hsv. apply Hin in Hsv. destruct Hsv as [Hk ->].
    rewrite mean_nonempty; [eauto|].
    intros F. apply map_eq_nil in F. revert F.
    apply group_nonempty. now apply group_keys_In.
  - apply sort_values_descending.
Qed.

(* ================================================================== *)
(** ** The overall rate as a weighted average of the rates by surface *)

Lemma weighted_sum_total (w num : string -> Z)
  (rates : list (string * option Q)) :
  Forall (fun sr => exists x, snd sr = Some x /\
            (x * inject_Z (w (fst sr)) == inject_Z (num (fst sr)))%Q) rates ->
  exists q, weighted_sum w rates = Some q /\
            (q == inject_Z (sum_Z (map (fun sr => num (fst sr)) rates)))%Q.
Proof.
  induction 1 as [|[s r] t [x [Hr Hx]] _ [q [Hq Hsum]]].
  - exists 0%Q. split; reflexivity.
  - cbn [fst snd] in *. subst r. cbn [weighted_sum]. rewrite Hq.
    eexists. split; [reflexivity|].
    rewrite map_cons, sum_Z_cons, inject_Z_plus, Hx, Hsum. reflexivity.
Qed.

Lemma mean_times_length (col : list Z) :
  col <> [] ->
  exists x, mean col = Some x /\
    (x * inject_Z (Z.of_nat (List.length col)) == inject_Z (sum_Z col))%Q.
Proof.
  intros Hne. rewrite mean_nonempty by assumption. eexists.
  split; [reflexivity|]. field.
  destruct col; [congruence|]. cbn [List.length].
  intros F. apply (Qeq_bool_neq (inject_Z (Z.of_nat (S (List.length col)))) 0);
    [|exact F].
  unfold Qeq_bool, inject_Z. cbn [Qnum Qden]. apply Z.eqb_neq. lia.
Qed.

(** Amended C3.  When every service row has a surface, the overall hold
    rate is the average of the rates in [hold_by_surface], each weighted by
    the number of service rows on its surface; both are [NaN] when there is
    no service row. *)
Theorem overall_rate_is_weighted_average `{SQ : ArgSort Q Qle}
  (df : list row) :
  (forall r, In r (serve_games df) -> SURFACE r <> None) ->
  same_rate (overall_hold_rate df)
    (weighted_average (service_rows_on df) (hold_by_surface df)).
Proof.
  intros Hall.
  set (S := serve_games df).
  set (num := fun s => sum_Z (map hold (filter (has_key SURFACE s) S))).
  assert (P : Permutation (hold_by_surface df) (hold_by_surface_unsorted df))
    by apply sort_values_Permutation.
  assert (Hkeys : Permutation (map fst (hold_by_surface df))
                    (group_keys SURFACE S)).
  { unfold S. rewrite <- hold_by_surface_unsorted_keys.
    now apply Permutation_map. }
  assert (Hcover : forall r k, In r S -> SURFACE r = Some k ->
                     In k (group_keys SURFACE S)).
  { intros r k Hr E. apply group_keys_In. eauto. }
  (* every entry times its weight is the sum of [hold] on its surface *)
  assert (Hent : Forall (fun sr => exists x, snd sr = Some x /\
            (x * inject_Z (service_rows_on df (fst sr)) ==
             inject_Z (num (fst sr)))%Q) (hold_by_surface df)).
  { apply Forall_forall. intros [s v] Hsv. cbn [fst snd].
    apply (Permutation_in _ P), hold_by_surface_unsorted_In in Hsv.
    destruct Hsv as [Hk ->]. fold S in Hk |- *.
    unfold service_rows_on, num. fold S.
    rewrite <- (length_map hold). apply mean_times_length.
    intros F. apply map_eq_nil in F. revert F.
    apply group_nonempty. now apply group_keys_In. }
  destruct (weighted_sum_total _ num Hent) as [q [Hq Hsum]].
  (* the sums over the surfaces are the sums over the service rows *)
  assert (Hnum : sum_Z (map (fun sr : string * option Q => num (fst sr))
                         (hold_by_surface df)) = sum_Z (map hold S)).
  { rewrite <- (map_map fst num), (sum_Z_Permutation (Permutation_map num Hkeys)).
    unfold num. rewrite (sum_by_group SURFACE hold S);
      [|apply group_keys_NoDup|exact Hcover].
    now rewrite dropna_subset_all. }
  assert (Htot : sum_Z (map (fun sr : string * option Q =>
                              service_rows_on df (fst sr))
                         (hold_by_surface df)) = Z.of_nat (List.length S)).
  { rewrite <- (map_map fst (service_rows_on df)),
      (sum_Z_Permutation (Permutation_map (service_rows_on df) Hkeys)).
    unfold service_rows_on. fold S.
    rewrite (map_ext _ (fun k => sum_Z (map (fun _ => 1)
                                  (filter (has_key SURFACE k) S))))
      by (intros k; now rewrite sum_ones).
    rewrite (sum_by_group SURFACE (fun _ => 1) S);
      [|apply group_keys_NoDup|exact Hcover].
    now rewrite dropna_subset_all, sum_ones. }
  unfold weighted_average, overall_hold_rate. fold S.
  rewrite Hq, Htot. rewrite Hnum in Hsum.
  destruct S as [|r0 S'] eqn:ES; [exact I|].
  rewrite mean_nonempty by discriminate.
  rewrite length_map. cbn [List.length].
  destruct (Z.eqb_spec (Z.of_nat (Datatypes.S (List.length S'))) 0) as [F|_];
    [lia|].
  cbn [same_rate]. now rewrite Hsum.
Qed.

(* ================================================================== *)
(** ** Games per month and the top tournaments *)

Lemma count_all_present {A B} (c : A -> option B) (l : list A) :
  (forall r, In r l -> c r <> None) ->
  count (map c l) = Z.of_nat (List.length l).
Proof.
  intros Hall. unfold count.
  now rewrite dropna_map_length, dropna_subset_all.
Qed.

Lemma filter_has_key_dropna {K A} `{Key K} (by_ : A -> option K) (k : K)
  (l : list A) :
  filter (has_key by_ k) (dropna_subset by_ l) = filter (has_key by_ k) l.
Proof.
  unfold dropna_subset. induction l as [|a l IH]; [reflexivity|].
  cbn [filter].
  assert (Hn : has_key by_ k a = true -> notna (by_ a) = true)
    by (unfold has_key; destruct (by_ a); [reflexivity|discriminate]).
  destruct (notna (by_ a)).
  - cbn [filter]. now rewrite IH.
  - destruct (has_key by_ k a); [now specialize (Hn eq_refl)|exact IH].
Qed.

Lemma period_leb_trans (p q r : period) :
  period_leb p q = true -> period_leb q r = true -> period_leb p r = true.
Proof.
  destruct p as [y m], q as [y' m'], r as [y'' m'']; unfold period_leb; simpl.
  rewrite !orb_true_iff, !andb_true_iff, !Z.ltb_lt, !Z.eqb_eq, !Z.leb_le. lia.
Qed.

Lemma StronglySorted_firstn {A} (R : A -> A -> Prop) (n : nat) (l : list A) :
  StronglySorted R l -> StronglySorted R (firstn n l).
Proof.
  intros S. revert n. induction S as [|a l S IH F]; intros [|n]; simpl;
    constructor; [apply IH|].
  rewrite Forall_forall in *. intros x Hx. apply F.
  rewrite <- (firstn_skipn n l). apply in_or_app. now left.
Qed.

(** What lines 115-120 compute: one line per month that some row has, the
    months in ascending order, each with the number of its rows whose
    MATCH ID is not blank. *)
Lemma games_per_month_frame_spec (df : list row) :
  StronglySorted (fun a b => period_leb (fst a) (fst b) = true)
    (games_per_month_frame df) /\
  NoDup (map fst (games_per_month_frame df)) /\
  (forall m n,
     In (m, n) (games_per_month_frame df) <->
     (exists r, In r df /\ MONTH r = Some m) /\
     n = count (map MATCH_ID (filter (has_key MONTH m) df))).
Proof.
  unfold games_per_month_frame.
  assert (Hk : map fst
            (map (fun kg : period * list row =>
                    (fst kg, count (map MATCH_ID (snd kg))))
               (groupby MONTH (dropna_subset MONTH df))) =
          group_keys MONTH (dropna_subset MONTH df)).
  { rewrite map_map. cbn [fst]. apply groupby_keys. }
  split; [|split].
  - apply (StronglySorted_map (fun p q => period_leb p q = true) fst).
    rewrite Hk. apply Sorted_StronglySorted.
    + intros p q r. apply period_leb_trans.
    + unfold group_keys. exact (sort_keys_Sorted (K := period) _).
  - rewrite Hk. apply group_keys_NoDup.
  - intros m n. rewrite in_map_iff. split.
    + intros [[k g] [E Hin]]. cbn [fst snd] in E. inversion E; subst.
      apply groupby_In in Hin. destruct Hin as [Hin ->].
      apply group_keys_In in Hin. destruct Hin as [r [Hr Hm]].
      apply filter_In in Hr. rewrite filter_has_key_dropna.
      split; [exists r; tauto|reflexivity].
    + intros [[r [Hr Hm]] ->].
      exists (m, filter (has_key MONTH m) (dropna_subset MONTH df)).
      cbn [fst snd]. split; [now rewrite filter_has_key_dropna|].
      apply groupby_In. split; [|reflexivity].
      apply group_keys_In. exists r. split; [|exact Hm].
      apply filter_In. split; [exact Hr|]. now rewrite Hm.
Qed.

(** With no blank MATCH ID the count of a month is the number of its rows. *)
Lemma games_per_month_frame_counts_rows (df : list row) (m : period) (n : Z) :
  (forall r, In r df -> MATCH_ID r <> None) ->
  In (m, n) (games_per_month_frame df) ->
  n = Z.of_nat (List.length (filter (has_key MONTH m) df)).
Proof.
  intros Hall Hin. apply games_per_month_frame_spec in Hin.
  destruct Hin as [_ ->]. apply count_all_present.
  intros r Hr. apply Hall. apply filter_In in Hr. tauto.
Qed.

Lemma tournament_rows_keys (df : list row) :
  map fst (tournament_rows df) = group_keys tournament_key df.
Proof.
  unfold tournament_rows. rewrite map_map. cbn [fst]. apply groupby_keys.
Qed.

Lemma tournament_rows_In (df : list row) (k : string * string) (n : Z) :
  In (k, n) (tournament_rows df) ->
  n = count (map MATCH_ID (filter (has_key tournament_key k) df)).
Proof.
  unfold tournament_rows. rewrite in_map_iff.
  intros [[k' g] [E Hin]]. cbn [fst snd] in E. inversion E; subst.
  apply groupby_In in Hin. now destruct Hin as [_ ->].
Qed.

(** Amended C6.  [top_tournaments] is the first ten lines of a table that
    has one line for each pair (tournament id, tournament name) some row
    carries in full, in descending order of the count; so it has at most ten
    lines, in descending order.  When no MATCH ID is blank the count of a
    pair is the number of its rows.  Nothing is said about the order of
    lines with equal counts. *)
Theorem top_tournaments_first_ten `{SZ : ArgSort Z Z.le} (df : list row) :
  (List.length (top_tournaments df) <= 10)%nat /\
  StronglySorted (fun a b => snd b <= snd a) (top_tournaments df) /\
  exists table,
    top_tournaments df = firstn 10 table /\
    StronglySorted (fun a b => snd b <= snd a) table /\
    NoDup (map fst table) /\
    (forall k, In k (map fst table) <->
               exists r, In r df /\ tournament_key r = Some k) /\
    ((forall r, In r df -> MATCH_ID r <> None) ->
     forall k n, In (k, n) table ->
       n = Z.of_nat (List.length (filter (has_key tournament_key k) df))).
Proof.
  set (table := sort_values (fun kn : string * string * Z => Some (snd kn))
                  false (tournament_rows df)).
  assert (P : Permutation table (tournament_rows df))
    by apply sort_values_Permutation.
  assert (S : StronglySorted (fun a b : string * string * Z => snd b <= snd a)
                table)
    by exact (sort_values_descending
                (fun kn : string * string * Z => Some (snd kn))
                (tournament_rows df)).
  split; [apply firstn_le_length|].
  split; [now apply StronglySorted_firstn|].
  exists table. split; [reflexivity|]. split; [exact S|].
  assert (Pk : Permutation (map fst table) (group_keys tournament_key df)).
  { rewrite <- tournament_rows_keys. now apply Permutation_map. }
  split; [|split].
  - apply (Permutation_NoDup (Permutation_sym Pk)), group_keys_NoDup.
  - intros k. rewrite <- group_keys_In. split.
    + apply Permutation_in, Pk.
    + apply Permutation_in. now symmetry.
  - intros Hall k n Hin. apply (Permutation_in _ P) in Hin.
    apply tournament_rows_In in Hin. subst n. apply count_all_present.
    intros r Hr. apply Hall. apply filter_In in Hr. tauto.
Qed.

(* ================================================================== *)
(** ** The loader *)

Section LoaderFacts.
Import Loader.

Lemma position_None (name : string) (cols : list cell) :
  position name cols = None <-> existsb (is_label name) cols = false.
Proof.
  induction cols as [|c cols IH]; simpl; [tauto|].
  destruct (is_label name c); simpl; [split; discriminate|].
  rewrite <- IH. destruct (position name cols); simpl; split; congruence.
Qed.

Lemma getitem_present (df : frame) (name : string) :
  existsb (is_label name) (columns df) = true ->
  exists col, getitem df name = Ok col.
Proof.
  intros E. unfold getitem.
  destruct (position name (columns df)) eqn:P; [eauto|].
  apply position_None in P. congruence.
Qed.

Lemma getitem_missing (df : frame) (name : string) :
  existsb (is_label name) (columns df) = false ->
  getitem df name = Err (KeyError name).
Proof.
  intros E. unfold getitem. apply position_None in E. now rewrite E.
Qed.

(** Fetching a list of columns stops at the first one the frame lacks. *)
Lemma mapM_getitem_missing (df : frame) (names : list string) :
  forallb (fun n => existsb (is_label n) (columns df)) names = false ->
  exists present name rest,
    names = present ++ name :: rest /\
    forallb (fun n => existsb (is_label n) (columns df)) present = true /\
    existsb (is_label name) (columns df) = false /\
    mapM (getitem df) names = Err (KeyError name).
Proof.
  induction names as [|n names IH]; simpl; [discriminate|].
  destruct (existsb (is_label n) (columns df)) eqn:E; simpl.
  - intros F. destruct (IH F) as [present [name [rest [-> [Hp [Hm Hr]]]]]].
    exists (n :: present), name, rest. simpl. rewrite E, Hp, Hr.
    destruct (getitem_present df n E) as [col ->]. simpl. auto.
  - intros _. exists [], n, names. simpl.
    rewrite (getitem_missing df n E). auto.
Qed.

Lemma mapM_getitem_present (df : frame) (names : list string) :
  forallb (fun n => existsb (is_label n) (columns df)) names = true ->
  exists cols, mapM (getitem df) names = Ok cols /\
               List.length cols = List.length names.
Proof.
  induction names as [|n names IH]; simpl; [eauto|].
  rewrite andb_true_iff. intros [E F].
  destruct (getitem_present df n E) as [col ->].
  destruct (IH F) as [cols [-> L]]. simpl. eexists. split; [reflexivity|].
  simpl. now rewrite L.
Qed.

(** Amended C9.  The loader fails, and the run with it, when the file is
    missing or is not a readable workbook.  It does not look at the names in
    the header: a sheet of two lines or more loads with its second line as
    header and the lines below as rows, whatever that header says.  A header
    that lacks a column the script uses ends the run later, with a
    [KeyError] at the first such column the script asks for; with all six
    present every look-up succeeds. *)
Theorem loader_contract (fs : filesystem) :
  (fs file_path = None ->
     df_of fs = Err FileNotFoundError /\ lookups fs = Err FileNotFoundError) /\
  (fs file_path = Some Unreadable ->
     df_of fs = Err BadFile /\ lookups fs = Err BadFile) /\
  (forall banner hdr lines,
     fs file_path = Some (Workbook (banner :: hdr :: lines)) ->
     df_of fs = Ok {| columns := hdr; data := lines |} /\
     (header_matches hdr = true ->
        exists cols, lookups fs = Ok cols /\ List.length cols = 6%nat) /\
     (header_matches hdr = false ->
        exists present name rest,
          used_columns = present ++ name :: rest /\
          forallb (fun n => existsb (is_label n) hdr) present = true /\
          existsb (is_label name) hdr = false /\
          lookups fs = Err (KeyError name))).
Proof.
  unfold lookups, df_of, read_excel. split; [|split].
  - intros ->. auto.
  - intros ->. auto.
  - intros banner hdr lines ->. cbn [nth_error skipn bind].
    split; [reflexivity|]. split.
    + intros Hm.
      exact (mapM_getitem_present {| columns := hdr; data := lines |}
               used_columns Hm).
    + intros Hm.
      exact (mapM_getitem_missing {| columns := hdr; data := lines |}
               used_columns Hm).
Qed.

End LoaderFacts.

(* ================================================================== *)
(** ** Concrete sheets *)

(** The example of the specification: two games on hard court, one held,
    and one game held on clay. *)
Example spec_example :
  let df := [game (Some "Hard") "WON"; game (Some "Hard") "LOST";
             game (Some "Clay") "WON"] in
  overall_hold_rate df = Some (2 # 3)%Q /\
  hold_by_surface (SQ := stable_Q) df =
    [("Clay", Some 1%Q); ("Hard", Some (1 # 2)%Q)] /\
  surface_counts (SZ := stable_Z) df = [("Hard", 2); ("Clay", 1)].
Proof. vm_compute. auto. Qed.

(** On a table of two surfaces numpy's quicksort is an insertion sort and
    leaves equal rates in the order of the labels. *)
Example hold_by_surface_two_ties :
  hold_by_surface (SQ := numpy_Q)
    [game (Some "Hard") "WON"; game (Some "Clay") "WON"] =
  [("Clay", Some 1%Q); ("Hard", Some 1%Q)].
Proof. vm_compute. reflexivity. Qed.

(** C2 as stated fails: on a sheet of eighteen surfaces, all with the rate
    1, the groups reach the sort in the order of their labels, numpy's
    quicksort splits the table around a pivot, and the surfaces come out
    in another order than that of the labels (a stable sort would have kept
    it).  The routine's answer is used as it is: it passes the test of
    [checked_argsort]. *)
Lemma hold_by_surface_ties_not_in_label_order :
  map fst (hold_by_surface_unsorted eighteen_surfaces) = eighteen_labels /\
  map snd (hold_by_surface (SQ := numpy_Q) eighteen_surfaces) =
    repeat (Some 1%Q) 18 /\
  sortsb Qle_bool (repeat 1%Q 18) (aquicksort Qlt_bool 0%Q (repeat 1%Q 18)) =
    true /\
  hold_by_surface (SQ := stable_Q) eighteen_surfaces =
    map (fun s => (s, Some 1%Q)) eighteen_labels /\
  same_labels (map fst (hold_by_surface (SQ := numpy_Q) eighteen_surfaces))
    eighteen_labels = false.
Proof. vm_compute. repeat split. Qed.

(** C3 as stated fails: a service game with a blank surface counts in the
    overall rate and in no rate by surface. *)
Lemma weighted_average_misses_blank_surface :
  let df := [game None "WON"; game (Some "Hard") "LOST"] in
  overall_hold_rate df = Some (1 # 2)%Q /\
  weighted_average (service_rows_on df) (hold_by_surface (SQ := stable_Q) df) =
    Some (0 # 1)%Q /\
  ~ same_rate (Some (1 # 2)%Q) (Some (0 # 1)%Q).
Proof.
  vm_compute. repeat split; try reflexivity. discriminate.
Qed.

(** The example of the specification has a surface on every service row, and
    its overall rate is the weighted average. *)
Lemma overall_rate_is_weighted_average_witness :
  let df := [game (Some "Hard") "WON"; game (Some "Hard") "LOST";
             game (Some "Clay") "WON"] in
  forallb (fun r => notna (SURFACE r)) (serve_games df) = true /\
  same_rate (overall_hold_rate df)
    (weighted_average (service_rows_on df)
       (hold_by_surface (SQ := stable_Q) df)).
Proof.
  split; [reflexivity|].
  apply (overall_rate_is_weighted_average (SQ := stable_Q)).
  intros r [<-|[<-|[<-|[]]]]; discriminate.
Defined.

(** C4 as stated fails: a row with a blank surface is a row, and no count
    has it. *)
Lemma surface_counts_miss_blank_surface :
  let df := [game None "WON"; game (Some "Hard") "WON"] in
  sum_Z (map snd (surface_counts (SZ := stable_Z) df)) = 1 /\
  num_rows df = 2.
Proof. vm_compute. auto. Qed.

(** With a surface on every row the counts add up to the number of rows. *)
Lemma surface_counts_sum_witness :
  let df := [game (Some "Hard") "WON"; game (Some "Clay") "LOST"] in
  sum_Z (map snd (surface_counts (SZ := stable_Z) df)) = num_rows df.
Proof.
  apply (proj2 (surface_counts_sum (SZ := stable_Z) _)).
  intros r [<-|[<-|[]]]; discriminate.
Defined.

(** A lost service game with a blank surface between two games held: three
    rows, two of three service games held, and the tables by surface as
    without it. *)
Lemma blank_surface_row_is_dropped_witness :
  let before := [game (Some "Hard") "WON"] in
  let r := game None "LOST" in
  let after := [game (Some "Clay") "WON"] in
  num_rows (before ++ r :: after) = 3 /\
  surface_counts (SZ := stable_Z) (before ++ r :: after) =
    surface_counts (SZ := stable_Z) (before ++ after) /\
  hold_by_surface (SQ := stable_Q) (before ++ r :: after) =
    hold_by_surface (SQ := stable_Q) (before ++ after) /\
  overall_hold_rate (before ++ r :: after) = Some (2 # 3)%Q.
Proof.
  destruct (blank_surface_row_is_dropped (SQ := stable_Q) (SZ := stable_Z)
              [game (Some "Hard") "WON"] [game (Some "Clay") "WON"]
              (game None "LOST") eq_refl) as [Hn [Hc [Hh Ho]]].
  destruct (Ho eq_refl) as [_ Hr].
  split; [exact Hn|]. split; [exact Hc|]. split; [exact Hh|exact Hr].
Defined.

(** C5 on a line with a date and a blank MATCH ID: the month of the line
    is there, with a count of 0, although one row falls in that month and
    [num_rows] counts it. *)
Theorem games_per_month_blank_match_id (period_str : period -> string) :
  exists rows,
    clean no_text_dates [line_without_match_id] = Ok rows /\
    map MONTH rows = [Some jan2024] /\
    num_rows rows = 1 /\
    games_per_month_frame rows = [(jan2024, 0)] /\
    games_per_month period_str rows = [(period_str jan2024, 0)].
Proof. eexists. split; [reflexivity|]. vm_compute. auto. Qed.

(** C6 as stated fails: of two tournaments with as many rows the one met
    second comes first when its key is the smaller, even under a stable
    sort, because [groupby] hands the groups over in key order. *)
Lemma top_tournaments_ties_in_key_order :
  let df := [game_of "T2" "Rome"; game_of "T1" "Paris"] in
  top_tournaments (SZ := stable_Z) df =
    [(("T1", "Paris"), 1); (("T2", "Rome"), 1)] /\
  top_tournaments_by_discovery (SZ := stable_Z) df =
    [(("T2", "Rome"), 1); (("T1", "Paris"), 1)].
Proof. vm_compute. auto. Qed.

(** Three rows with a MATCH ID in two tournaments: each count is a number of
    rows. *)
Lemma top_tournaments_first_ten_witness :
  let df := [game_of "T2" "Rome"; game_of "T1" "Paris"; game_of "T2" "Rome"] in
  top_tournaments (SZ := stable_Z) df =
    [(("T2", "Rome"), 2); (("T1", "Paris"), 1)] /\
  forallb (fun r => notna (MATCH_ID r)) df = true /\
  exists table,
    top_tournaments (SZ := stable_Z) df = firstn 10 table /\
    forall k n, In (k, n) table ->
      n = Z.of_nat (List.length (filter (has_key tournament_key k) df)).
Proof.
  split; [reflexivity|]. split; [reflexivity|].
  destruct (top_tournaments_first_ten (SZ := stable_Z)
              [game_of "T2" "Rome"; game_of "T1" "Paris"; game_of "T2" "Rome"])
    as [_ [_ [table [Htop [_ [_ [_ Hrows]]]]]]].
  exists table. split; [exact Htop|]. apply Hrows.
  intros r [<-|[<-|[<-|[]]]]; discriminate.
Defined.

(** C9 as stated fails: a workbook whose header has none of the expected
    names loads without an error. *)
Lemma loader_accepts_any_header :
  let fs := fun path : string =>
    if String.eqb path Loader.file_path
    then Some (Loader.Workbook
                 [[Text "WTA 2024"]; [Text "PLAYER"; Text "SCORE"];
                  [Text "Ana"; Text "6-4"]])
    else None in
  Loader.header_matches [Text "PLAYER"; Text "SCORE"] = false /\
  Loader.df_of fs =
    Ok {| Loader.columns := [Text "PLAYER"; Text "SCORE"];
          Loader.data := [[Text "Ana"; Text "6-4"]] |} /\
  Loader.lookups fs = Err (KeyError "MATCH DATE").
Proof. vm_compute. auto. Qed.

(** A workbook with a banner line and the six names in its second line: every
    look-up succeeds. *)
Lemma loader_contract_witness :
  let hdr := [Text "MATCH ID"; Text "MATCH DATE"; Text "TOURNAMENT ID";
              Text "TOURNAMENT NAME"; Text "SURFACE"; Text "WON SERVE"] in
  let fs := fun path : string =>
    if String.eqb path Loader.file_path
    then Some (Loader.Workbook
                 [[Text "WTA 2024"]; hdr;
                  [Text "M1"; Stamp jan15; Text "T1"; Text "Open";
                   Text "Hard"; Text "WON"]])
    else None in
  Loader.header_matches hdr = true /\
  exists cols, Loader.lookups fs = Ok cols /\ List.length cols = 6%nat.
Proof.
  split; [reflexivity|].
  refine (proj1 (proj2 (proj2 (proj2 (loader_contract _)) _ _ _ eq_refl)) _).
  reflexivity.
Defined.

(* ================================================================== *)
(** ** Further properties of the script *)

Lemma Forall_filter {A} (P : A -> Prop) (f : A -> bool) (l : list A) :
  Forall P l -> Forall P (filter f l).
Proof.
  rewrite !Forall_forall. intros H x Hx. apply H.
  apply filter_In in Hx. tauto.
Qed.

Lemma Permutation_filter_same {A} (f : A -> bool) (l l' : list A) :
  Permutation l l' -> Permutation (filter f l) (filter f l').
Proof.
  induction 1 as [|x l l' _ IH|x y l|l l' l'' _ IH1 _ IH2]; simpl.
  - constructor.
  - destruct (f x); [now constructor|exact IH].
  - destruct (f x), (f y); try reflexivity. apply perm_swap.
  - now transitivity (filter f l').
Qed.

Lemma mean_Permutation (col col' : list Z) :
  Permutation col col' -> mean col = mean col'.
Proof.
  intros P. destruct col as [|x col].
  - apply Permutation_nil in P. now subst.
  - destruct col' as [|y col'].
    + symmetry in P. apply Permutation_nil in P. discriminate.
    + unfold mean. now rewrite (sum_Z_Permutation P), (Permutation_length P).
Qed.

Lemma dropna_Permutation {A} (col col' : list (option A)) :
  Permutation col col' -> Permutation (dropna col) (dropna col').
Proof. apply Permutation_flat_map. Qed.

Lemma count_Permutation {A} (col col' : list (option A)) :
  Permutation col col' -> count col = count col'.
Proof.
  intros P. unfold count.
  now rewrite (Permutation_length (dropna_Permutation P)).
Qed.

Lemma sum_Z_unit_bounds (col : list Z) :
  Forall (fun h => 0 <= h <= 1) col ->
  0 <= sum_Z col <= Z.of_nat (List.length col).
Proof.
  induction 1 as [|h col Hh _ IH]; [cbn; lia|].
  rewrite sum_Z_cons. cbn [List.length]. lia.
Qed.

(** The mean of flags that are 0 or 1 is a rate between 0 and 1. *)
Lemma mean_unit_interval (col : list Z) (q : Q) :
  Forall (fun h => 0 <= h <= 1) col ->
  mean col = Some q -> (0 <= q /\ q <= 1)%Q.
Proof.
  intros F E. destruct col as [|h col]; [discriminate|].
  pose proof (sum_Z_unit_bounds F) as [Hlo Hhi].
  set (n := Z.of_nat (List.length (h :: col))) in *.
  assert (Hn : 0 < n) by (unfold n; cbn [List.length]; lia).
  unfold mean in E. fold n in E. inversion E; subst q; clear E.
  assert (Hq : (0 < inject_Z n)%Q)
    by (change 0%Q with (inject_Z 0); rewrite <- Zlt_Qlt; exact Hn).
  split.
  - apply Qle_shift_div_l; [exact Hq|]. rewrite Qmult_0_l.
    change 0%Q with (inject_Z 0). rewrite <- Zle_Qle. exact Hlo.
  - apply Qle_shift_div_r; [exact Hq|]. rewrite Qmult_1_l.
    rewrite <- Zle_Qle. exact Hhi.
Qed.

Lemma hold_flag_cleaned (parse_datetime : string -> option timestamp)
  (df : list raw_row) :
  Forall (fun r => 0 <= hold r <= 1) (map (cleaned_row parse_datetime) df).
Proof.
  apply Forall_forall. intros r Hr. apply in_map_iff in Hr.
  destruct Hr as [raw [<- _]]. unfold cleaned_row, cleaned. cbn [hold].
  destruct (eq_str (raw_WON_SERVE raw) "WON"); cbn; lia.
Qed.


(** X2.  On the cleaned sheet every hold rate is a fraction between 0 and
    1: the overall rate when there is one, and each rate by surface, whatever
    the sort does; the fixed range [0, 1] of the second plot cuts nothing
    off. *)
Theorem hold_rates_between_0_and_1 `{SQ : ArgSort Q Qle}
  (parse_datetime : string -> option timestamp) (df : list raw_row) :
  exists rows,
    clean parse_datetime df = Ok rows /\
    (forall q, overall_hold_rate rows = Some q -> (0 <= q /\ q <= 1)%Q) /\
    (forall s v, In (s, v) (hold_by_surface rows) ->
       exists q, v = Some q /\ (0 <= q /\ q <= 1)%Q).
Proof.
  exists (map (cleaned_row parse_datetime) df). split; [apply clean_ok|].
  pose proof (hold_flag_cleaned parse_datetime df) as F.
  set (rows := map (cleaned_row parse_datetime) df) in *.
  assert (Fg : forall f, Forall (fun h => 0 <= h <= 1)
                 (map hold (filter f (serve_games rows)))).
  { intros f. apply Forall_map. now do 2 apply Forall_filter. }
  split.
  - intros q E. apply (mean_unit_interval (col := map hold (serve_games rows)));
      [|exact E].
    apply Forall_map. now apply Forall_filter.
  - intros s v Hin.
    apply (Permutation_in _ (sort_values_Permutation _ _ _)) in Hin.
    apply hold_by_surface_unsorted_In in Hin. destruct Hin as [Hk ->].
    destruct (mean (map hold (filter (has_key SURFACE s) (serve_games rows))))
      as [q|] eqn:E.
    + exists q. split; [reflexivity|].
      exact (mean_unit_interval (Fg _) E).
    + exfalso. unfold mean in E.
      destruct (map hold (filter (has_key SURFACE s) (serve_games rows)))
        eqn:E'; [|discriminate].
      apply map_eq_nil in E'. revert E'.
      apply group_nonempty. now apply group_keys_In.
Qed.

Lemma filter_keqb_dropna_length {K A} `{Key K} (c : A -> option K) (k : K)
  (df : list A) :
  List.length (filter (keqb k) (dropna (map c df))) =
  List.length (filter (has_key c k) df).
Proof.
  induction df as [|a df IH]; [reflexivity|].
  cbn [map dropna flat_map filter]. fold (dropna (map c df)).
  unfold has_key at 1. destruct (c a) as [k'|]; cbn [app filter].
  - destruct (keqb k k'); cbn [List.length]; now rewrite IH.
  - exact IH.
Qed.

Lemma filter_filter_length {A} (f g : A -> bool) (l : list A) :
  (List.length (filter f (filter g l)) <= List.length (filter f l))%nat.
Proof.
  induction l as [|a l IH]; [reflexivity|]. cbn [filter].
  destruct (g a); cbn [filter]; destruct (f a); cbn [List.length]; lia.
Qed.

Lemma value_counts_In {K} `{Key K} `{SZ : ArgSort Z Z.le}
  (col : list (option K)) (k : K) (n : Z) :
  In (k, n) (value_counts col) <->
  In (Some k) col /\
  n = Z.of_nat (List.length (filter (keqb k) (dropna col))).
Proof.
  unfold value_counts.
  set (U := map (fun k0 => (k0, Z.of_nat (List.length
                                (filter (keqb k0) (dropna col)))))
              (unique (dropna col))).
  assert (HU : In (k, n) U <->
               In (Some k) col /\
               n = Z.of_nat (List.length (filter (keqb k) (dropna col)))).
  { unfold U. rewrite in_map_iff. split.
    - intros [k0 [E Hin]]. inversion E; subst.
      apply unique_In, dropna_In in Hin. auto.
    - intros [Hin ->]. exists k. split; [reflexivity|].
      now apply unique_In, dropna_In. }
  rewrite <- HU. split; apply Permutation_in;
    [|symmetry]; apply sort_values_Permutation.
Qed.

Lemma value_counts_keys {K} `{Key K} `{SZ : ArgSort Z Z.le}
  (col : list (option K)) :
  Permutation (map fst (value_counts col)) (unique (dropna col)).
Proof.
  unfold value_counts.
  rewrite (Permutation_map fst (sort_values_Permutation _ _ _)).
  rewrite map_map. cbn [fst]. now rewrite map_id.
Qed.

Lemma surface_counts_In `{SZ : ArgSort Z Z.le} (df : list row) (s : string)
  (n : Z) :
  In (s, n) (surface_counts df) <->
  (exists r, In r df /\ SURFACE r = Some s) /\
  n = Z.of_nat (List.length (filter (has_key SURFACE s) df)).
Proof.
  unfold surface_counts. rewrite value_counts_In.
  rewrite (filter_keqb_dropna_length SURFACE s df), in_map_iff.
  split; intros [[r Hr] E]; (split; [exists r; tauto|exact E]).
Qed.

(** X3.  [surface_counts] has one line for each surface some row carries
    and none for a blank; the count of a surface is the number of rows on
    it, at least 1; and the lines are in descending order of count. *)
Theorem surface_counts_table `{SZ : ArgSort Z Z.le} (df : list row) :
  NoDup (map fst (surface_counts df)) /\
  (forall s n,
     In (s, n) (surface_counts df) <->
     (exists r, In r df /\ SURFACE r = Some s) /\
     n = Z.of_nat (List.length (filter (has_key SURFACE s) df))) /\
  (forall s n, In (s, n) (surface_counts df) -> 1 <= n) /\
  StronglySorted (fun a b => snd b <= snd a) (surface_counts df).
Proof.
  split; [|split; [|split]].
  - apply (Permutation_NoDup
             (Permutation_sym (value_counts_keys (map SURFACE df)))).
    apply unique_NoDup.
  - apply surface_counts_In.
  - intros s n Hin. apply surface_counts_In in Hin.
    destruct Hin as [[r [Hr E]] ->].
    assert (Hf : In r (filter (has_key SURFACE s) df))
      by (apply filter_In; split; [exact Hr|now apply has_key_iff]).
    destruct (filter (has_key SURFACE s) df); [contradiction|].
    cbn [List.length]. lia.
  - exact (sort_values_descending (fun kc : string * Z => Some (snd kc)) _).
Qed.

(** X4.  Every surface that has a hold rate also has a line in
    [surface_counts], and its rate is taken over at least one service game
    and over no more games than that line counts: the second plot never
    shows a surface the first one lacks. *)
Theorem hold_surfaces_are_counted
  `{SQ : ArgSort Q Qle} `{SZ : ArgSort Z Z.le}
  (df : list row) (s : string) (v : option Q) :
  In (s, v) (hold_by_surface df) ->
  exists n,
    In (s, n) (surface_counts df) /\
    1 <= service_rows_on df s <= n.
Proof.
  intros Hin.
  apply (Permutation_in _ (sort_values_Permutation _ _ _)) in Hin.
  apply hold_by_surface_unsorted_In in Hin.
  destruct Hin as [[r [Hr E]] _].
  exists (Z.of_nat (List.length (filter (has_key SURFACE s) df))). split.
  - apply surface_counts_In. split; [|reflexivity].
    exists r. split; [|exact E]. apply filter_In in Hr. tauto.
  - unfold service_rows_on, serve_games. split.
    + assert (Hf : In r (filter (has_key SURFACE s)
                           (filter (fun r => is_service_game r =? 1) df)))
        by (apply filter_In; split; [exact Hr|now apply has_key_iff]).
      destruct (filter (has_key SURFACE s)
                  (filter (fun r => is_service_game r =? 1) df));
        [contradiction|]. cbn [List.length]. lia.
    + apply inj_le, filter_filter_length.
Qed.

(** Clay has a rate and a count in the example of the specification. *)
Lemma hold_surfaces_are_counted_witness :
  let df := [game (Some "Hard") "WON"; game (Some "Hard") "LOST";
             game (Some "Clay") "WON"] in
  In ("Clay", Some 1%Q) (hold_by_surface (SQ := stable_Q) df) /\
  exists n,
    In ("Clay", n) (surface_counts (SZ := stable_Z) df) /\
    1 <= service_rows_on df "Clay" <= n.
Proof.
  split; [left; reflexivity|].
  apply (hold_surfaces_are_counted (SQ := stable_Q) (SZ := stable_Z)
           [game (Some "Hard") "WON"; game (Some "Hard") "LOST";
            game (Some "Clay") "WON"] "Clay" (Some 1%Q)).
  left. reflexivity.
Defined.

Lemma unique_length_le {K} `{Key K} (l : list K) :
  (List.length (unique l) <= List.length l)%nat.
Proof.
  induction l as [|k l IH]; [reflexivity|]. cbn [unique List.length].
  pose proof (filter_length_le (fun k' => negb (keqb k k')) (unique l)). lia.
Qed.

Lemma dropna_length_le {A} (col : list (option A)) :
  (List.length (dropna col) <= List.length col)%nat.
Proof.
  unfold dropna.
  induction col as [|[a|] col IH]; cbn [flat_map app List.length]; lia.
Qed.

(** [nunique] counts the distinct non-blank values of a column. *)
Lemma nunique_spec {K A} `{Key K} (c : A -> option K) (df : list A) :
  0 <= nunique (map c df) <= Z.of_nat (List.length df) /\
  exists values,
    NoDup values /\
    (forall k, In k values <-> exists r, In r df /\ c r = Some k) /\
    nunique (map c df) = Z.of_nat (List.length values).
Proof.
  unfold nunique. split.
  - pose proof (unique_length_le (dropna (map c df))) as Hu.
    pose proof (dropna_length_le (map c df)) as Hd.
    rewrite (length_map c df) in Hd. lia.
  - exists (unique (dropna (map c df))).
    split; [apply unique_NoDup|]. split; [|reflexivity].
    intros k. rewrite unique_In, dropna_In, in_map_iff.
    split; intros [r Hr]; exists r; tauto.
Qed.

(** X5.  [num_tournaments] and [num_matches] are the numbers of distinct
    non-blank tournament ids and match ids: each lies between 0 and the
    number of rows and is the length of a duplicate-free list of exactly the
    ids some row carries. *)
Theorem distinct_ids_counted (df : list row) :
  (0 <= num_tournaments df <= num_rows df /\
   exists ids,
     NoDup ids /\
     (forall i, In i ids <-> exists r, In r df /\ TOURNAMENT_ID r = Some i) /\
     num_tournaments df = Z.of_nat (List.length ids)) /\
  (0 <= num_matches df <= num_rows df /\
   exists ids,
     NoDup ids /\
     (forall i, In i ids <-> exists r, In r df /\ MATCH_ID r = Some i) /\
     num_matches df = Z.of_nat (List.length ids)).
Proof.
  split; [apply (nunique_spec TOURNAMENT_ID df)|apply (nunique_spec MATCH_ID df)].
Qed.

Lemma tournament_key_Some (r : row) (i n : string) :
  tournament_key r = Some (i, n) <->
  TOURNAMENT_ID r = Some i /\ TOURNAMENT_NAME r = Some n.
Proof.
  unfold tournament_key.
  destruct (TOURNAMENT_ID r), (TOURNAMENT_NAME r); split;
    try (intros [E1 E2]); try intros E; try discriminate; try congruence.
  split; congruence.
Qed.

(** X6.  The table behind [top_tournaments] has a line per pair (id, name),
    not per id.  When every row with a tournament id has a name the table
    has at least [num_tournaments] lines, and exactly that many when no id
    comes with two names; rows without an id play no part in either. *)
Theorem tournament_lines_and_ids (df : list row) :
  (forall r, In r df -> TOURNAMENT_ID r <> None -> TOURNAMENT_NAME r <> None) ->
  num_tournaments df <= Z.of_nat (List.length (tournament_rows df)) /\
  ((forall r r' i, In r df -> In r' df ->
      TOURNAMENT_ID r = Some i -> TOURNAMENT_ID r' = Some i ->
      TOURNAMENT_NAME r = TOURNAMENT_NAME r') ->
   num_tournaments df = Z.of_nat (List.length (tournament_rows df))).
Proof.
  intros Hname.
  set (ids := unique (dropna (map TOURNAMENT_ID df))).
  set (keys := group_keys tournament_key df).
  assert (Hlen : List.length (tournament_rows df) = List.length (map fst keys)).
  { unfold keys. rewrite <- tournament_rows_keys, !length_map. reflexivity. }
  assert (Hids : forall i, In i ids <->
                   exists r, In r df /\ TOURNAMENT_ID r = Some i).
  { intros i. unfold ids. rewrite unique_In, dropna_In, in_map_iff.
    split; intros [r Hr]; exists r; tauto. }
  assert (Hincl : incl ids (map fst keys)).
  { intros i Hi. apply Hids in Hi. destruct Hi as [r [Hr E]].
    destruct (TOURNAMENT_NAME r) as [n|] eqn:En.
    - apply in_map_iff. exists (i, n). split; [reflexivity|].
      apply group_keys_In. exists r. split; [exact Hr|].
      now apply tournament_key_Some.
    - exfalso. apply (Hname r Hr); [congruence|exact En]. }
  assert (Hle : (List.length ids <= List.length (map fst keys))%nat)
    by (apply NoDup_incl_length; [apply unique_NoDup|exact Hincl]).
  unfold num_tournaments, nunique. fold ids. rewrite Hlen.
  split; [lia|]. intros Hfun.
  assert (Hnd : NoDup (map fst keys)).
  { apply NoDup_map_NoDup_ForallPairs; [|apply group_keys_NoDup].
    intros [i n] [i' n'] Hk Hk' E. cbn [fst] in E. subst i'.
    apply group_keys_In in Hk. destruct Hk as [r [Hr Er]].
    apply group_keys_In in Hk'. destruct Hk' as [r' [Hr' Er']].
    apply tournament_key_Some in Er, Er'.
    destruct Er as [Ei En], Er' as [Ei' En'].
    assert (Eq : TOURNAMENT_NAME r = TOURNAMENT_NAME r')
      by (apply (Hfun r r' i); assumption).
    congruence. }
  assert (Hincl' : incl (map fst keys) ids).
  { intros i Hi. apply in_map_iff in Hi. destruct Hi as [[i' n] [E Hk]].
    cbn [fst] in E. subst i'. apply group_keys_In in Hk.
    destruct Hk as [r [Hr Er]]. apply tournament_key_Some in Er.
    apply Hids. exists r. tauto. }
  pose proof (NoDup_incl_length Hnd Hincl'). lia.
Qed.

(** Two tournaments, each under one name, and two rows without an id under
    two names: two ids, two lines. *)
Lemma tournament_lines_and_ids_witness :
  let df := [game_of "T2" "Rome"; game_without_id "A"; game_of "T1" "Paris";
             game_without_id "B"; game_of "T2" "Rome"] in
  forallb (fun r => notna (TOURNAMENT_NAME r)) df = true /\
  num_tournaments df = 2 /\
  num_tournaments df <= Z.of_nat (List.length (tournament_rows df)) /\
  num_tournaments df = Z.of_nat (List.length (tournament_rows df)).
Proof.
  split; [reflexivity|]. split; [reflexivity|].
  assert (Hname : forall r,
            In r [game_of "T2" "Rome"; game_without_id "A";
                  game_of "T1" "Paris"; game_without_id "B";
                  game_of "T2" "Rome"] ->
            TOURNAMENT_ID r <> None -> TOURNAMENT_NAME r <> None)
    by (intros r [<-|[<-|[<-|[<-|[<-|[]]]]]] _; discriminate).
  destruct (tournament_lines_and_ids _ Hname) as [Hle Heq].
  split; [exact Hle|]. apply Heq.
  intros r r' i [<-|[<-|[<-|[<-|[<-|[]]]]]] [<-|[<-|[<-|[<-|[<-|[]]]]]] E E';
    try reflexivity; cbn in E, E'; congruence.
Defined.

Lemma count_as_sum {A B} (c : A -> option B) (l : list A) :
  count (map c l) = sum_Z (map (fun r => Z.b2z (notna (c r))) l).
Proof.
  unfold count. rewrite dropna_map_length. unfold dropna_subset.
  induction l as [|a l IH]; [reflexivity|].
  rewrite map_cons, sum_Z_cons, <- IH. cbn [filter].
  destruct (notna (c a)); cbn [Z.b2z List.length]; lia.
Qed.

Lemma sum_flags {A} (p : A -> bool) (l : list A) :
  sum_Z (map (fun r => Z.b2z (p r)) l) = Z.of_nat (List.length (filter p l)).
Proof.
  induction l as [|a l IH]; [reflexivity|].
  rewrite map_cons, sum_Z_cons, IH. cbn [filter].
  destruct (p a); cbn [Z.b2z List.length]; lia.
Qed.

Lemma filter_filter_andb {A} (f g : A -> bool) (l : list A) :
  filter f (filter g l) = filter (fun r => g r && f r) l.
Proof.
  induction l as [|a l IH]; [reflexivity|]. cbn [filter].
  destruct (g a); cbn [filter andb]; [destruct (f a)|]; now rewrite IH.
Qed.

(** The counts of the groups of a frame add up to the number of rows that
    have both a key and a value in the counted column. *)
Lemma group_counts_sum {K A B} `{Key K} (by_ : A -> option K)
  (c : A -> option B) (df : list A) :
  sum_Z (map (fun kg => count (map c (snd kg))) (groupby by_ df)) =
  Z.of_nat (List.length
              (filter (fun r => notna (by_ r) && notna (c r)) df)).
Proof.
  unfold groupby. rewrite map_map. cbn [snd].
  rewrite (map_ext _ (fun k => sum_Z (map (fun r => Z.b2z (notna (c r)))
                                        (filter (has_key by_ k) df))))
    by (intros k; apply count_as_sum).
  rewrite (sum_by_group by_ (fun r => Z.b2z (notna (c r))) df).
  - rewrite sum_flags. unfold dropna_subset. now rewrite filter_filter_andb.
  - apply group_keys_NoDup.
  - intros r k Hr E. apply group_keys_In. eauto.
Qed.

Lemma dropna_subset_idem {A B} (c : A -> option B) (l : list A) :
  dropna_subset c (dropna_subset c l) = dropna_subset c l.
Proof.
  apply dropna_subset_all. intros r Hr. apply filter_In in Hr.
  destruct (c r); [discriminate|]. destruct Hr as [_ F]. discriminate.
Qed.

(** X7.  The monthly table has one line for each month some row falls in,
    none for a row without a month, the months in ascending order without
    repetition; the count of a month is the number of its rows that have a
    MATCH ID; and turning the months into text keeps the lines and counts
    where they are. *)
Theorem games_per_month_by_month (period_str : period -> string)
  (df : list row) :
  StronglySorted (fun a b => period_leb (fst a) (fst b) = true)
    (games_per_month_frame df) /\
  NoDup (map fst (games_per_month_frame df)) /\
  (forall m n,
     In (m, n) (games_per_month_frame df) <->
     (exists r, In r df /\ MONTH r = Some m) /\
     n = Z.of_nat (List.length
           (filter (fun r => has_key MONTH m r && notna (MATCH_ID r)) df))) /\
  map fst (games_per_month period_str df) =
    map period_str (map fst (games_per_month_frame df)) /\
  map snd (games_per_month period_str df) =
    map snd (games_per_month_frame df).
Proof.
  destruct (games_per_month_frame_spec df) as [Hs [Hn Hin]].
  split; [exact Hs|]. split; [exact Hn|]. split; [|split].
  - intros m n. rewrite Hin.
    rewrite count_as_sum, sum_flags, filter_filter_andb. reflexivity.
  - unfold games_per_month. now rewrite !map_map.
  - unfold games_per_month. now rewrite !map_map.
Qed.

(** X8.  The counts of the monthly table add up to the number of rows that
    have both a month and a MATCH ID, which is never more than
    [num_rows]. *)
Theorem games_per_month_total (df : list row) :
  sum_Z (map snd (games_per_month_frame df)) =
    Z.of_nat (List.length
      (filter (fun r => notna (MONTH r) && notna (MATCH_ID r)) df)) /\
  sum_Z (map snd (games_per_month_frame df)) <= num_rows df.
Proof.
  assert (E : sum_Z (map snd (games_per_month_frame df)) =
    Z.of_nat (List.length
      (filter (fun r => notna (MONTH r) && notna (MATCH_ID r)) df))).
  { unfold games_per_month_frame. rewrite map_map. cbn [snd].
    rewrite (group_counts_sum MONTH MATCH_ID (dropna_subset MONTH df)).
    unfold dropna_subset at 1. rewrite filter_filter_andb.
    do 2 f_equal. apply filter_ext. intros r.
    destruct (notna (MONTH r)); reflexivity. }
  split; [exact E|]. rewrite E. unfold num_rows.
  apply inj_le, filter_length_le.
Qed.

Lemma sum_Z_nonneg (l : list Z) : Forall (fun n => 0 <= n) l -> 0 <= sum_Z l.
Proof.
  induction 1 as [|n l Hn _ IH]; [cbn; lia|]. rewrite sum_Z_cons. lia.
Qed.

Lemma sum_Z_firstn (k : nat) (l : list Z) :
  Forall (fun n => 0 <= n) l -> sum_Z (firstn k l) <= sum_Z l.
Proof.
  intros F. rewrite <- (firstn_skipn k l) at 2. rewrite sum_Z_app.
  assert (0 <= sum_Z (skipn k l)); [|lia].
  apply sum_Z_nonneg. rewrite <- (firstn_skipn k l) in F.
  now apply Forall_app in F.
Qed.

Lemma StronglySorted_app_inv {A} (R : A -> A -> Prop) (l1 l2 : list A) :
  StronglySorted R (l1 ++ l2) ->
  forall a b, In a l1 -> In b l2 -> R a b.
Proof.
  induction l1 as [|x l1 IH]; intros S a b Ha Hb; [contradiction|].
  cbn [app] in S. inversion S as [|? ? S' F]; subst.
  destruct Ha as [<-|Ha].
  - rewrite Forall_forall in F. apply F, in_or_app. now right.
  - now apply IH.
Qed.

(** X9.  [top_tournaments] holds the largest counts: every line of the
    tournament table is one of its lines, or there are ten lines and each
    of them counts at least as much as that line. *)
Theorem top_tournaments_are_largest `{SZ : ArgSort Z Z.le} (df : list row) :
  Forall (fun kn =>
            In kn (top_tournaments df) \/
            (List.length (top_tournaments df) = 10%nat /\
             forall kn', In kn' (top_tournaments df) -> snd kn <= snd kn'))
    (tournament_rows df).
Proof.
  set (table := sort_values (fun kn : string * string * Z => Some (snd kn))
                  false (tournament_rows df)).
  assert (P : Permutation table (tournament_rows df))
    by apply sort_values_Permutation.
  assert (S : StronglySorted (fun a b : string * string * Z => snd b <= snd a)
                table)
    by exact (sort_values_descending
                (fun kn : string * string * Z => Some (snd kn))
                (tournament_rows df)).
  apply Forall_forall. intros kn Hkn.
  apply (Permutation_in _ (Permutation_sym P)) in Hkn.
  unfold top_tournaments, head. fold table.
  rewrite <- (firstn_skipn 10 table) in Hkn, S.
  apply in_app_or in Hkn. destruct Hkn as [Hkn|Hkn]; [now left|right].
  split.
  - rewrite length_firstn. apply Nat.min_l.
    destruct (Nat.le_gt_cases 10 (List.length table)) as [L|L]; [exact L|].
    rewrite skipn_all2 in Hkn by lia. contradiction.
  - intros kn' Hkn'. exact (@StronglySorted_app_inv _ _ _ _ S _ _ Hkn' Hkn).
Qed.

(** X10.  The counts of the tournament table add up to the number of rows
    that have a tournament id, a tournament name and a MATCH ID, and the
    counts in [top_tournaments] to no more than that, so to no more than
    [num_rows]. *)
Theorem tournament_counts_total `{SZ : ArgSort Z Z.le} (df : list row) :
  sum_Z (map snd (tournament_rows df)) =
    Z.of_nat (List.length
      (filter (fun r => notna (tournament_key r) && notna (MATCH_ID r)) df)) /\
  sum_Z (map snd (top_tournaments df)) <= sum_Z (map snd (tournament_rows df)) /\
  sum_Z (map snd (top_tournaments df)) <= num_rows df.
Proof.
  assert (E : sum_Z (map snd (tournament_rows df)) =
    Z.of_nat (List.length
      (filter (fun r => notna (tournament_key r) && notna (MATCH_ID r)) df))).
  { unfold tournament_rows. rewrite map_map. cbn [snd].
    apply group_counts_sum. }
  assert (T : sum_Z (map snd (top_tournaments df)) <=
              sum_Z (map snd (tournament_rows df))).
  { unfold top_tournaments, head.
    set (table := sort_values (fun kn : string * string * Z => Some (snd kn))
                    false (tournament_rows df)).
    assert (P : Permutation table (tournament_rows df))
      by apply sort_values_Permutation.
    rewrite <- (sum_Z_Permutation (Permutation_map snd P)).
    rewrite <- firstn_map. apply sum_Z_firstn.
    apply Forall_forall. intros n Hn. apply in_map_iff in Hn.
    destruct Hn as [[k n'] [<- Hin]]. apply (Permutation_in _ P) in Hin.
    apply tournament_rows_In in Hin. cbn [snd]. subst n'.
    unfold count. lia. }
  split; [exact E|]. split; [exact T|].
  rewrite E in T. unfold num_rows.
  pose proof (filter_length_le
    (fun r => notna (tournament_key r) && notna (MATCH_ID r)) df). lia.
Qed.

Lemma nil_iff_no_member {A} (l : list A) : l = [] <-> forall x, ~ In x l.
Proof.
  split; [intros -> x []|]. destruct l as [|a l]; [reflexivity|].
  intros F. exfalso. apply (F a). now left.
Qed.

Lemma Permutation_nil_iff {A} (l l' : list A) :
  Permutation l l' -> (l = [] <-> l' = []).
Proof.
  intros P. split; intros ->.
  - now apply Permutation_nil.
  - symmetry in P. now apply Permutation_nil.
Qed.

Lemma firstn_10_nil {A} (l : list A) : firstn 10 l = [] <-> l = [].
Proof. destruct l; simpl; split; congruence. Qed.

(** X11.  When a table comes out empty: there is no overall rate exactly
    when there is no service game; no rate by surface exactly when no
    service game has a surface; no count by surface, no monthly line and no
    tournament line exactly when no row has a surface, a month, or both a
    tournament id and name.  An empty sheet gives no rate and empty
    tables. *)
Theorem empty_tables `{SQ : ArgSort Q Qle} `{SZ : ArgSort Z Z.le}
  (df : list row) :
  (overall_hold_rate df = None <-> serve_games df = []) /\
  (hold_by_surface df = [] <->
     forall r, In r (serve_games df) -> SURFACE r = None) /\
  (surface_counts df = [] <-> forall r, In r df -> SURFACE r = None) /\
  (games_per_month_frame df = [] <-> forall r, In r df -> MONTH r = None) /\
  (top_tournaments df = [] <->
     forall r, In r df -> TOURNAMENT_ID r = None \/ TOURNAMENT_NAME r = None).
Proof.
  split; [|split; [|split; [|split]]].
  - unfold overall_hold_rate. split.
    + intros E. destruct (serve_games df); [reflexivity|discriminate].
    + intros ->. reflexivity.
  - unfold hold_by_surface.
    rewrite (Permutation_nil_iff (sort_values_Permutation snd false
                                    (hold_by_surface_unsorted df))).
    rewrite nil_iff_no_member. split.
    + intros F r Hr. destruct (SURFACE r) as [s|] eqn:E; [|reflexivity].
      exfalso. eapply F. apply hold_by_surface_unsorted_In.
      split; [exists r; split; [exact Hr|exact E]|reflexivity].
    + intros F [s v] Hin. apply hold_by_surface_unsorted_In in Hin.
      destruct Hin as [[r [Hr E]] _]. rewrite (F r Hr) in E. discriminate.
  - rewrite nil_iff_no_member. split.
    + intros F r Hr. destruct (SURFACE r) as [s|] eqn:E; [|reflexivity].
      exfalso. eapply F. apply surface_counts_In.
      split; [exists r; split; [exact Hr|exact E]|reflexivity].
    + intros F [s n] Hin. apply surface_counts_In in Hin.
      destruct Hin as [[r [Hr E]] _]. rewrite (F r Hr) in E. discriminate.
  - destruct (games_per_month_frame_spec df) as [_ [_ Hin]].
    rewrite nil_iff_no_member. split.
    + intros F r Hr. destruct (MONTH r) as [m|] eqn:E; [|reflexivity].
      exfalso. eapply F. apply Hin.
      split; [exists r; split; [exact Hr|exact E]|reflexivity].
    + intros F [m n] Hmn. apply Hin in Hmn.
      destruct Hmn as [[r [Hr E]] _]. rewrite (F r Hr) in E. discriminate.
  - unfold top_tournaments, head. rewrite firstn_10_nil.
    rewrite (Permutation_nil_iff (sort_values_Permutation _ false
                                    (tournament_rows df))).
    unfold tournament_rows. split.
    + intros E r Hr. apply map_eq_nil in E.
      assert (Hk : group_keys tournament_key df = [])
        by (rewrite <- groupby_keys, E; reflexivity).
      destruct (TOURNAMENT_ID r) as [i|] eqn:Ei; [|now left].
      destruct (TOURNAMENT_NAME r) as [n|] eqn:En; [|now right].
      exfalso.
      assert (Hin : In (i, n) (group_keys tournament_key df)).
      { apply group_keys_In. exists r. split; [exact Hr|].
        now apply tournament_key_Some. }
      rewrite Hk in Hin. contradiction.
    + intros F.
      assert (Hk : group_keys tournament_key df = []).
      { apply nil_iff_no_member. intros [i n] Hin.
        apply group_keys_In in Hin. destruct Hin as [r [Hr E]].
        apply tournament_key_Some in E. destruct E as [Ei En].
        destruct (F r Hr); congruence. }
      unfold groupby. now rewrite Hk.
Qed.

Lemma period_leb_antisym (p q : period) :
  period_leb p q = true -> period_leb q p = true -> p = q.
Proof.
  destruct p as [y m], q as [y' m']; unfold period_leb; simpl.
  rewrite !orb_true_iff, !andb_true_iff, !Z.ltb_lt, !Z.eqb_eq, !Z.leb_le.
  intros H1 H2. f_equal; lia.
Qed.

(** Two sorted lists without repetition that have the same members are the
    same list. *)
Lemma sorted_members_unique {A} (R : A -> A -> Prop) (l l' : list A) :
  (forall a b, R a b -> R b a -> a = b) ->
  StronglySorted R l -> StronglySorted R l' -> NoDup l -> NoDup l' ->
  (forall x, In x l <-> In x l') -> l = l'.
Proof.
  intros anti S. revert l'.
  induction S as [|x t S IH F]; intros l' S' N N' M.
  - destruct l' as [|y t']; [reflexivity|].
    exfalso. apply (proj2 (M y)). now left.
  - destruct l' as [|y t']; [exfalso; apply (proj1 (M x)); now left|].
    inversion S' as [|? ? St' F']; subst.
    inversion N as [|? ? Nx Nt]; subst.
    inversion N' as [|? ? Ny Nt']; subst.
    rewrite Forall_forall in F, F'.
    assert (E : x = y).
    { destruct (proj1 (M x) (or_introl eq_refl)) as [E|Hx]; [now symmetry|].
      destruct (proj2 (M y) (or_introl eq_refl)) as [E|Hy]; [exact E|].
      apply anti; [now apply F|now apply F']. }
    subst y. f_equal. apply IH; try assumption.
    intros z. split; intros Hz.
    + destruct (proj1 (M z) (or_intror Hz)) as [E|Hz']; [|exact Hz'].
      subst z. contradiction.
    + destruct (proj2 (M z) (or_intror Hz)) as [E|Hz']; [|exact Hz'].
      subst z. contradiction.
Qed.

Lemma member_Permutation {A} (P : A -> Prop) (l l' : list A) :
  Permutation l l' ->
  ((exists r, In r l /\ P r) <-> (exists r, In r l' /\ P r)).
Proof.
  intros Q. split; intros [r [Hr Pr]]; exists r; split; try exact Pr.
  - now apply (Permutation_in _ Q).
  - now apply (Permutation_in _ (Permutation_sym Q)).
Qed.

Lemma group_keys_Permutation {K A} `{Key K} (by_ : A -> option K)
  (df df' : list A) :
  Permutation df df' ->
  Permutation (group_keys by_ df) (group_keys by_ df').
Proof.
  intros P. apply NoDup_Permutation; try apply group_keys_NoDup.
  intros k. rewrite !group_keys_In. now apply member_Permutation.
Qed.

Lemma nunique_Permutation {K} `{Key K} (col col' : list (option K)) :
  Permutation col col' -> nunique col = nunique col'.
Proof.
  intros P. unfold nunique. f_equal. apply Permutation_length.
  apply NoDup_Permutation; try apply unique_NoDup.
  intros k. rewrite !unique_In, !dropna_In.
  split; apply Permutation_in; [exact P|now symmetry].
Qed.

(** A table keyed without repetition is fixed, up to the order of its
    lines, by which lines it has. *)
Lemma keyed_Permutation {K V} (t t' : list (K * V)) :
  NoDup (map fst t) -> NoDup (map fst t') ->
  (forall kv, In kv t <-> In kv t') -> Permutation t t'.
Proof.
  intros N N' M. apply NoDup_Permutation; [| |exact M].
  - exact (NoDup_map_inv fst t N).
  - exact (NoDup_map_inv fst t' N').
Qed.

Lemma month_keys_Permutation (df df' : list row) :
  Permutation df df' -> group_keys MONTH df = group_keys MONTH df'.
Proof.
  intros P.
  assert (S : forall l : list row,
            StronglySorted (fun p q => period_leb p q = true)
              (group_keys MONTH l)).
  { intros l. apply Sorted_StronglySorted.
    - intros p q r. apply period_leb_trans.
    - unfold group_keys. exact (sort_keys_Sorted (K := period) _). }
  apply (sorted_members_unique (R := fun p q => period_leb p q = true)).
  - apply period_leb_antisym.
  - apply S.
  - apply S.
  - apply group_keys_NoDup.
  - apply group_keys_NoDup.
  - intros m. rewrite !group_keys_In. now apply member_Permutation.
Qed.

(** X12.  The order of the rows of the sheet does not matter: rearranging
    them leaves the three counts, the overall rate and the monthly table as
    they are, and leaves in the tables by surface and by tournament the same
    lines, whose order can differ only among equal values. *)
Theorem row_order_does_not_matter
  `{SQ : ArgSort Q Qle} `{SZ : ArgSort Z Z.le} (df df' : list row) :
  Permutation df df' ->
  num_rows df = num_rows df' /\
  num_tournaments df = num_tournaments df' /\
  num_matches df = num_matches df' /\
  overall_hold_rate df = overall_hold_rate df' /\
  games_per_month_frame df = games_per_month_frame df' /\
  Permutation (surface_counts df) (surface_counts df') /\
  Permutation (hold_by_surface df) (hold_by_surface df') /\
  Permutation (tournament_rows df) (tournament_rows df').
Proof.
  intros P.
  assert (Ps : Permutation (serve_games df) (serve_games df'))
    by now apply Permutation_filter_same.
  split; [unfold num_rows; now rewrite (Permutation_length P)|].
  split; [now apply nunique_Permutation, Permutation_map|].
  split; [now apply nunique_Permutation, Permutation_map|].
  split; [now apply mean_Permutation, Permutation_map|].
  split; [|split; [|split]].
  - unfold games_per_month_frame.
    assert (Pd : Permutation (dropna_subset MONTH df) (dropna_subset MONTH df'))
      by now apply Permutation_filter_same.
    unfold groupby. rewrite !map_map. cbn [fst snd].
    rewrite (month_keys_Permutation Pd).
    apply map_ext. intros m.
    f_equal. apply count_Permutation, Permutation_map.
    now apply Permutation_filter_same.
  - apply keyed_Permutation.
    + apply (Permutation_NoDup
               (Permutation_sym (value_counts_keys (map SURFACE df)))).
      apply unique_NoDup.
    + apply (Permutation_NoDup
               (Permutation_sym (value_counts_keys (map SURFACE df')))).
      apply unique_NoDup.
    + intros [s n]. rewrite !surface_counts_In.
      rewrite (member_Permutation (fun r => SURFACE r = Some s) P).
      now rewrite (Permutation_length
                     (Permutation_filter_same (has_key SURFACE s) P)).
  - unfold hold_by_surface.
    rewrite (sort_values_Permutation snd false (hold_by_surface_unsorted df)).
    rewrite (sort_values_Permutation snd false (hold_by_surface_unsorted df')).
    apply keyed_Permutation.
    + rewrite hold_by_surface_unsorted_keys. apply group_keys_NoDup.
    + rewrite hold_by_surface_unsorted_keys. apply group_keys_NoDup.
    + intros [s v]. rewrite !hold_by_surface_unsorted_In.
      rewrite (member_Permutation (fun r => SURFACE r = Some s) Ps).
      now rewrite (mean_Permutation
                     (Permutation_map hold
                        (Permutation_filter_same (has_key SURFACE s) Ps))).
  - apply keyed_Permutation.
    + rewrite tournament_rows_keys. apply group_keys_NoDup.
    + rewrite tournament_rows_keys. apply group_keys_NoDup.
    + intros [k n]. unfold tournament_rows, groupby.
      rewrite !map_map. cbn [fst snd]. rewrite !in_map_iff.
      split; intros [k' [E Hk]]; exists k'; (split;
        [|eapply Permutation_in; [|exact Hk]; apply group_keys_Permutation;
          try exact P; now symmetry]).
      * rewrite <- E. f_equal. apply count_Permutation, Permutation_map.
        apply Permutation_filter_same. now symmetry.
      * rewrite <- E. f_equal. apply count_Permutation, Permutation_map.
        now apply Permutation_filter_same.
Qed.

(** The example of the specification with its rows turned around. *)
Lemma row_order_does_not_matter_witness :
  let df := [game (Some "Hard") "WON"; game (Some "Hard") "LOST";
             game (Some "Clay") "WON"] in
  overall_hold_rate (rev df) = overall_hold_rate df /\
  games_per_month_frame (rev df) = games_per_month_frame df /\
  Permutation (hold_by_surface (SQ := stable_Q) (rev df))
    (hold_by_surface (SQ := stable_Q) df).
Proof.
  destruct (row_order_does_not_matter (SQ := stable_Q) (SZ := stable_Z)
              (Permutation_sym (Permutation_rev
                 [game (Some "Hard") "WON"; game (Some "Hard") "LOST";
                  game (Some "Clay") "WON"])))
    as [_ [_ [_ [Ho [Hm [_ [Hh _]]]]]]].
  split; [exact Ho|]. split; [exact Hm|exact Hh].
Defined.

Section LoaderColumns.
Import Loader.

Lemma getitem_length (df : frame) (name : string) (col : list cell) :
  getitem df name = Ok col -> List.length col = List.length (data df).
Proof.
  unfold getitem. destruct (position name (columns df)); [|discriminate].
  intros E. inversion E. apply length_map.
Qed.

Lemma mapM_getitem_lengths (df : frame) (names : list string)
  (cols : list (list cell)) :
  mapM (getitem df) names = Ok cols ->
  List.length cols = List.length names /\
  Forall (fun col => List.length col = List.length (data df)) cols.
Proof.
  revert cols. induction names as [|n names IH]; intros cols; simpl.
  - intros E. inversion E. split; [reflexivity|constructor].
  - destruct (getitem df n) as [col|e] eqn:En; simpl; [|discriminate].
    destruct (mapM (getitem df) names) as [rest|e]; simpl; [|discriminate].
    intros E. inversion E; subst. destruct (IH rest eq_refl) as [L F].
    split; [simpl; now rewrite L|].
    constructor; [now apply (getitem_length df n)|exact F].
Qed.

(** X13.  When the look-ups succeed on a workbook of a banner line, a
    header line and data lines, they give six columns, each with one cell
    for every data line however short the line is; and the banner line
    plays no part: another banner gives the same columns. *)
Theorem loaded_columns (fs fs' : filesystem) (banner banner' hdr : list cell)
  (lines : list (list cell)) (cols : list (list cell)) :
  fs file_path = Some (Workbook (banner :: hdr :: lines)) ->
  fs' file_path = Some (Workbook (banner' :: hdr :: lines)) ->
  lookups fs = Ok cols ->
  List.length cols = 6%nat /\
  Forall (fun col => List.length col = List.length lines) cols /\
  lookups fs' = Ok cols.
Proof.
  unfold lookups, df_of, read_excel. intros -> ->.
  cbn [nth_error skipn bind]. intros E.
  destruct (mapM_getitem_lengths _ _ E) as [L F].
  split; [exact L|]. split; [exact F|exact E].
Qed.

End LoaderColumns.

(** A sheet with the six columns and one short data line, under a banner
    of one's choice. *)
Lemma loaded_columns_witness :
  let cols := [[Stamp jan15; Blank]; [Text "WON"; Blank];
               [Text "T1"; Blank]; [Text "M1"; Text "M2"];
               [Text "Hard"; Blank]; [Text "Open"; Blank]] in
  Loader.lookups (sample_workbook "WTA 2024") = Ok cols /\
  List.length cols = 6%nat /\
  Forall (fun col => List.length col = 2%nat) cols /\
  Loader.lookups (sample_workbook "Points") = Ok cols.
Proof.
  split; [reflexivity|].
  exact (@loaded_columns (sample_workbook "WTA 2024")
           (sample_workbook "Points") _ _ _ _ _ eq_refl eq_refl eq_refl).
Defined.

Lemma serve_games_skip (before after : list row) (r : row) :
  (is_service_game r =? 1) = false ->
  serve_games (before ++ r :: after) = serve_games (before ++ after).
Proof.
  intros E. rewrite !serve_games_app. unfold serve_games at 2.
  cbn [filter]. now rewrite E.
Qed.

(** X14.  A row that is not a service game (its outcome is neither "WON"
    nor "LOST") counts as a row and changes neither the overall hold rate
    nor the rates by surface, wherever it stands in the sheet. *)
Theorem other_outcomes_are_ignored `{SQ : ArgSort Q Qle}
  (before after : list row) (r : row) :
  is_service_game r <> 1 ->
  num_rows (before ++ r :: after) = num_rows (before ++ after) + 1 /\
  serve_games (before ++ r :: after) = serve_games (before ++ after) /\
  overall_hold_rate (before ++ r :: after) =
    overall_hold_rate (before ++ after) /\
  hold_by_surface (before ++ r :: after) = hold_by_surface (before ++ after).
Proof.
  intros Hr. apply Z.eqb_neq in Hr.
  pose proof (serve_games_skip before after r Hr) as E.
  split; [|split; [exact E|split]].
  - unfold num_rows. rewrite !length_app. cbn [List.length]. lia.
  - unfold overall_hold_rate. now rewrite E.
  - unfold hold_by_surface, hold_by_surface_unsorted. now rewrite E.
Qed.

(** A game with outcome "N/A" between two service games. *)
Lemma other_outcomes_are_ignored_witness :
  let before := [game (Some "Hard") "WON"] in
  let r := game (Some "Hard") "N/A" in
  let after := [game (Some "Clay") "LOST"] in
  is_service_game r = 0 /\
  num_rows (before ++ r :: after) = 3 /\
  overall_hold_rate (before ++ r :: after) = Some (1 # 2)%Q /\
  hold_by_surface (SQ := stable_Q) (before ++ r :: after) =
    hold_by_surface (SQ := stable_Q) (before ++ after).
Proof.
  split; [reflexivity|].
  assert (Hn : is_service_game (game (Some "Hard") "N/A") <> 1)
    by discriminate.
  destruct (other_outcomes_are_ignored (SQ := stable_Q)
              [game (Some "Hard") "WON"] [game (Some "Clay") "LOST"]
              (game (Some "Hard") "N/A") Hn)
    as [H1 [_ [H3 H4]]].
  split; [exact H1|]. split; [exact H3|exact H4].
Defined.

Lemma clean_app (parse_datetime : string -> option timestamp)
  (l1 l2 : list raw_row) :
  map (cleaned_row parse_datetime) (l1 ++ l2) =
  map (cleaned_row parse_datetime) l1 ++ map (cleaned_row parse_datetime) l2.
Proof. apply map_app. Qed.

Lemma games_per_month_frame_skip (before after : list row) (r : row) :
  MONTH r = None ->
  games_per_month_frame (before ++ r :: after) =
  games_per_month_frame (before ++ after).
Proof.
  intros E. unfold games_per_month_frame, dropna_subset.
  rewrite !filter_app. cbn [filter]. now rewrite E.
Qed.

(** X15.  A line whose date is a text that does not parse is kept as a row
    and left out of the monthly table: when the dates of the other lines
    are read the same with the line in the sheet as without it (the line
    can change the format that [pd.to_datetime] infers for the column), the
    sheet cleans to one row more with the line, and the monthly table is
    what it is without the line. *)
Theorem unparseable_date_leaves_months
  (parse_with parse_without : string -> option timestamp)
  (before after : list raw_row) (line : raw_row) (s : string) :
  raw_MATCH_DATE line = Text s ->
  parse_with s = None ->
  (forall l, In l (before ++ after) ->
     coerced parse_with (raw_MATCH_DATE l) =
     coerced parse_without (raw_MATCH_DATE l)) ->
  exists rows rows',
    clean parse_with (before ++ line :: after) = Ok rows /\
    clean parse_without (before ++ after) = Ok rows' /\
    num_rows rows = num_rows rows' + 1 /\
    games_per_month_frame rows = games_per_month_frame rows'.
Proof.
  intros Ed Ep Hsame. do 2 eexists. split; [apply clean_ok|].
  split; [apply clean_ok|]. split.
  - unfold num_rows. rewrite !length_map, !length_app. cbn [List.length]. lia.
  - assert (E : map (cleaned_row parse_without) (before ++ after) =
                map (cleaned_row parse_with) (before ++ after)).
    { apply map_ext_in. intros l Hl. unfold cleaned_row.
      now rewrite (Hsame l Hl). }
    rewrite E, !clean_app, map_cons. apply games_per_month_frame_skip.
    unfold cleaned_row, cleaned. cbn [MONTH]. rewrite Ed. cbn [coerced].
    now rewrite Ep.
Qed.

(** A line dated "soon" between two lines with a date cell, which are read
    the same by any two parsers. *)
Lemma unparseable_date_leaves_months_witness :
  let dated := {| raw_MATCH_DATE := Stamp jan15;
                  raw_TOURNAMENT_ID := Some "T1";
                  raw_TOURNAMENT_NAME := Some "Open";
                  raw_MATCH_ID := Some "M1";
                  raw_SURFACE := Some "Hard";
                  raw_WON_SERVE := Some "WON" |} in
  let undated := {| raw_MATCH_DATE := Text "soon";
                    raw_TOURNAMENT_ID := Some "T1";
                    raw_TOURNAMENT_NAME := Some "Open";
                    raw_MATCH_ID := Some "M2";
                    raw_SURFACE := Some "Hard";
                    raw_WON_SERVE := Some "LOST" |} in
  exists rows rows',
    clean no_text_dates [dated; undated; dated] = Ok rows /\
    clean (fun _ => Some jan15) [dated; dated] = Ok rows' /\
    num_rows rows = num_rows rows' + 1 /\
    games_per_month_frame rows = games_per_month_frame rows'.
Proof.
  refine (unparseable_date_leaves_months no_text_dates (fun _ => Some jan15)
           [_] [_] {| raw_MATCH_DATE := Text "soon";
                      raw_TOURNAMENT_ID := Some "T1";
                      raw_TOURNAMENT_NAME := Some "Open";
                      raw_MATCH_ID := Some "M2";
                      raw_SURFACE := Some "Hard";
                      raw_WON_SERVE := Some "LOST" |}
           eq_refl eq_refl _).
  intros l [<-|[<-|[]]]; reflexivity.
Defined.

Lemma sum_bounded_above {K} (a b : K -> Z) (hi : Q) (ks : list K) :
  Forall (fun k => (inject_Z (a k) <= hi * inject_Z (b k))%Q) ks ->
  (inject_Z (sum_Z (map a ks)) <= hi * inject_Z (sum_Z (map b ks)))%Q.
Proof.
  induction 1 as [|k ks Hk _ IH].
  - cbn. rewrite Qmult_0_r. apply Qle_refl.
  - rewrite !map_cons, !sum_Z_cons, !inject_Z_plus, Qmult_plus_distr_r.
    now apply Qplus_le_compat.
Qed.

Lemma sum_bounded_below {K} (a b : K -> Z) (lo : Q) (ks : list K) :
  Forall (fun k => (lo * inject_Z (b k) <= inject_Z (a k))%Q) ks ->
  (lo * inject_Z (sum_Z (map b ks)) <= inject_Z (sum_Z (map a ks)))%Q.
Proof.
  induction 1 as [|k ks Hk _ IH].
  - cbn. rewrite Qmult_0_r. apply Qle_refl.
  - rewrite !map_cons, !sum_Z_cons, !inject_Z_plus, Qmult_plus_distr_r.
    now apply Qplus_le_compat.
Qed.

Lemma quotient_times (a c : Z) :
  0 < c -> (inject_Z a / inject_Z c * inject_Z c == inject_Z a)%Q.
Proof.
  intros Hc. rewrite Qmult_comm. apply Qmult_div_r.
  intros F. unfold Qeq, inject_Z in F. cbn [Qnum Qden] in F. lia.
Qed.

(** X16.  When every service game has a surface, the overall hold rate
    lies between the lowest and the highest rate by surface: any bounds
    that hold for all the rates in [hold_by_surface] hold for the overall
    rate. *)
Theorem overall_rate_between_surfaces `{SQ : ArgSort Q Qle}
  (df : list row) (lo hi q : Q) :
  (forall r, In r (serve_games df) -> SURFACE r <> None) ->
  overall_hold_rate df = Some q ->
  (forall s x, In (s, Some x) (hold_by_surface df) -> (lo <= x /\ x <= hi)%Q) ->
  (lo <= q /\ q <= hi)%Q.
Proof.
  intros Hall Hq Hb.
  set (S := serve_games df) in *.
  set (keys := group_keys SURFACE S).
  set (total := fun k : string =>
                  sum_Z (map hold (filter (has_key SURFACE k) S))).
  set (size := fun k : string =>
                 Z.of_nat (List.length (filter (has_key SURFACE k) S))).
  assert (Hcover : forall r k, In r S -> SURFACE r = Some k -> In k keys).
  { intros r k Hr E. apply group_keys_In. eauto. }
  assert (Hsize : forall k, In k keys -> 0 < size k).
  { intros k Hk. unfold size. pose proof (group_nonempty _ _ _ Hk) as Hne.
    destruct (filter (has_key SURFACE k) S); [congruence|].
    cbn [List.length]. lia. }
  assert (Hrate : forall k, In k keys ->
            (lo <= inject_Z (total k) / inject_Z (size k) /\
             inject_Z (total k) / inject_Z (size k) <= hi)%Q).
  { intros k Hk. apply (Hb k).
    apply (Permutation_in _ (Permutation_sym
             (sort_values_Permutation snd false (hold_by_surface_unsorted df)))).
    apply hold_by_surface_unsorted_In. fold S.
    split; [now apply group_keys_In|].
    rewrite mean_nonempty, length_map; [reflexivity|].
    intros F. apply map_eq_nil in F. revert F. now apply group_nonempty. }
  assert (Hpos : forall k, In k keys -> (0 <= inject_Z (size k))%Q).
  { intros k Hk. change 0%Q with (inject_Z 0). rewrite <- Zle_Qle.
    specialize (Hsize k Hk). lia. }
  assert (Htotal : sum_Z (map total keys) = sum_Z (map hold S)).
  { unfold total. rewrite (sum_by_group SURFACE hold S);
      [|apply group_keys_NoDup|exact Hcover].
    now rewrite dropna_subset_all. }
  assert (Hcount : sum_Z (map size keys) = Z.of_nat (List.length S)).
  { unfold size.
    rewrite (map_ext _ (fun k => sum_Z (map (fun _ => 1)
                                  (filter (has_key SURFACE k) S))))
      by (intros k; now rewrite sum_ones).
    rewrite (sum_by_group SURFACE (fun _ => 1) S);
      [|apply group_keys_NoDup|exact Hcover].
    now rewrite dropna_subset_all, sum_ones. }
  assert (Hhi : (inject_Z (sum_Z (map total keys)) <=
                 hi * inject_Z (sum_Z (map size keys)))%Q).
  { apply sum_bounded_above, Forall_forall. intros k Hk.
    rewrite <- (quotient_times (total k) (Hsize k Hk)) at 1.
    apply Qmult_le_compat_r; [apply (Hrate k Hk)|now apply Hpos]. }
  assert (Hlo : (lo * inject_Z (sum_Z (map size keys)) <=
                 inject_Z (sum_Z (map total keys)))%Q).
  { apply sum_bounded_below, Forall_forall. intros k Hk.
    rewrite <- (quotient_times (total k) (Hsize k Hk)).
    apply Qmult_le_compat_r; [apply (Hrate k Hk)|now apply Hpos]. }
  rewrite Htotal, Hcount in Hhi, Hlo.
  unfold overall_hold_rate in Hq. fold S in Hq.
  destruct S as [|r0 S'] eqn:ES; [discriminate|].
  rewrite mean_nonempty, length_map in Hq by discriminate.
  inversion Hq as [Eq]. clear Hq.
  assert (Hn : (0 < inject_Z (Z.of_nat (List.length (r0 :: S'))))%Q).
  { change 0%Q with (inject_Z 0). rewrite <- Zlt_Qlt. cbn [List.length]. lia. }
  split.
  - apply Qle_shift_div_l; [exact Hn|exact Hlo].
  - apply Qle_shift_div_r; [exact Hn|exact Hhi].
Qed.

(** In the example of the specification the rates by surface are 1 and 1/2,
    and the overall rate lies between them. *)
Lemma overall_rate_between_surfaces_witness :
  let df := [game (Some "Hard") "WON"; game (Some "Hard") "LOST";
             game (Some "Clay") "WON"] in
  overall_hold_rate df = Some (2 # 3)%Q /\
  hold_by_surface (SQ := stable_Q) df =
    [("Clay", Some 1%Q); ("Hard", Some (1 # 2)%Q)] /\
  ((1 # 2) <= (2 # 3) /\ (2 # 3) <= 1)%Q.
Proof.
  split; [reflexivity|]. split; [reflexivity|].
  apply (overall_rate_between_surfaces (SQ := stable_Q)
           [game (Some "Hard") "WON"; game (Some "Hard") "LOST";
            game (Some "Clay") "WON"] (lo := 1 # 2) (hi := 1)).
  - intros r [<-|[<-|[<-|[]]]]; discriminate.
  - reflexivity.
  - intros s x [E|[E|[]]]; inversion E; subst; split; discriminate.
Defined.
